(** * EPRI IEEE 2030.5 client: hash container, EXI and XML primitives, DER scheduling

    A shallow embedding of the C sources [hash.c], [exi_parse.c],
    [xml_parse.c] and [der.c], and the properties of the specification
    checked against it.

    C integers are modelled as [Z] with the wrap-around of their type written
    out; arrays are lists indexed from zero; a pointer into an array is an
    index; [NULL] is [None].  A C execution that leaves defined behaviour
    (a store outside an object, a freed or null pointer) is [Undefined]; a
    loop that is cut off by the fuel of the model is [Timeout]. *)

From Stdlib Require Import ZArith Lia String Ascii.
From Stdlib.Strings Require Import Byte.
From stdpp Require Import base list gmap.

#[local] Open Scope Z_scope.

(** ** Outcomes of a C call *)

Inductive result (A : Type) : Type :=
| Ok (a : A)
| Undefined
| Timeout.

Arguments Ok {A} a.
Arguments Undefined {A}.
Arguments Timeout {A}.

Definition rbind {A B : Type} (r : result A) (k : A -> result B) : result B :=
  match r with
  | Ok a => k a
  | Undefined => Undefined
  | Timeout => Timeout
  end.

Notation "'do' x <- r ; k" := (rbind r (fun x => k))
  (at level 10, x name, r at level 100, k at level 200).
Notation "'do' ( x , y ) <- r ; k" := (rbind r (fun xy => let '(x, y) := xy in k))
  (at level 10, x name, y name, r at level 100, k at level 200).

(** ** Machine integers *)

(** The value of [x] in an unsigned type of 8, 32 or 64 bits: [x] modulo a
    power of two, computed as a mask. *)
Definition uint8 (x : Z) : Z := Z.land x 0xff.
Definition uint32 (x : Z) : Z := Z.land x 0xffffffff.
Definition uint64 (x : Z) : Z := Z.land x 0xffffffffffffffff.

(** Conversion to a 32-bit [int] (two's complement). *)
Definition sint32 (x : Z) : Z :=
  let y := uint32 x in if y <? 0x80000000 then y else y - 0x100000000.

(** Conversion to [int64_t]. *)
Definition sint64 (x : Z) : Z :=
  let y := uint64 x in
  if y <? 0x8000000000000000 then y else y - 0x10000000000000000.

(** [a[z]] for a C index [z]: nothing below zero or past the end. *)
Definition zlookup {A : Type} (l : list A) (z : Z) : option A :=
  if z <? 0 then None else l !! Z.to_nat z.

(** [a[z] = x], inside the array. *)
Definition zstore {A : Type} (l : list A) (z : Z) (x : A) : option (list A) :=
  if z <? 0 then None
  else
    let n := Z.to_nat z in
    match l !! n with
    | Some _ => Some (<[n := x]> l)
    | None => None
    end.

(** [memmove (a + dst, a + src, n)] on an array of [length a] elements. *)
Definition memmove {A : Type} (a : list A) (dst src n : nat) : list A :=
  take dst a ++ take n (drop src a) ++ drop (dst + n) a.

(** [memset (a, x, n)] *)
Definition memset {A : Type} (a : list A) (x : A) (n : nat) : list A :=
  replicate n x ++ drop n a.

(** The states of the parser driver ([p->state]). *)
Inductive ParseState : Type :=
| PARSE_NEXT
| PARSE_ELEMENT
| PARSE_END
| PARSE_INVALID.

(** The value of a byte of a buffer, as [uint8_t]. *)
Definition byte_val (b : Byte.byte) : Z := Z.of_N (Byte.to_N b).

(** * hash.c *)

Module Hash.

(** [popcount64]: the Hamming weight of a 64-bit word. *)
Definition popcount64 (x : Z) : Z :=
  let m1 := 0x5555555555555555 in
  let m2 := 0x3333333333333333 in
  let m4 := 0x0f0f0f0f0f0f0f0f in
  let h01 := 0x0101010101010101 in
  let x := uint64 (x - Z.land (Z.shiftr x 1) m1) in
  let x := uint64 (Z.land x m2 + Z.land (Z.shiftr x 2) m2) in
  let x := Z.land (uint64 (x + Z.shiftr x 4)) m4 in
  sint32 (Z.shiftr (uint64 (x * h01)) 56).

(** [bit_rank]: count the bits up to bit position [i]. *)
Definition bit_rank (bits : Z) (i : Z) : Z :=
  if i =? 0 then 0 else popcount64 (uint64 (Z.shiftl bits (64 - i))).

Section Table.

(** The element type and the three callbacks of a [HashTable]. *)
Context {Data Key : Type}.
Variable get_key : Data -> Key.
Variable hash : Key -> Z.
Variable compare : Key -> Key -> Z.

(** [SparseGroup]: [slot] is [NULL] until the first insertion; [bits] holds
    the count (6 bits) above the bitmap (58 bits). *)
Record SparseGroup : Type := {
  slot : option (list (option Data));
  bits : Z
}.

(** A [SparseGroup *] held in [ht->g]: the allocation it points into and
    the index of the group there.  [hash_init] allocates a new table, and
    the table of the copy made by [hash_resize] is freed. *)
Record GroupPtr : Type := { g_table : nat; g_index : Z }.

Record HashTable : Type := {
  i : Z;
  items : Z;
  min : Z;
  max : Z;
  size : Z;
  table_id : nat;               (* names the allocation of [table] *)
  table : list SparseGroup;
  g : option GroupPtr;
  last : Z                      (* index of the last group of [table] *)
}.

Definition set_mark (ht : HashTable) (h : option GroupPtr) (j : Z) : HashTable :=
  {| i := j; items := items ht; min := min ht; max := max ht; size := size ht;
     table_id := table_id ht; table := table ht; g := h; last := last ht |}.

Definition set_g (ht : HashTable) (h : option GroupPtr) : HashTable :=
  set_mark ht h (i ht).

Definition set_table (ht : HashTable) (t : list SparseGroup) : HashTable :=
  {| i := i ht; items := items ht; min := min ht; max := max ht; size := size ht;
     table_id := table_id ht; table := t; g := g ht; last := last ht |}.

Definition set_items (ht : HashTable) (n : Z) : HashTable :=
  {| i := i ht; items := n; min := min ht; max := max ht; size := size ht;
     table_id := table_id ht; table := table ht; g := g ht; last := last ht |}.

(** [sg_empty (g, i)] *)
Definition sg_empty (sg : SparseGroup) (i : Z) : bool :=
  Z.land (bits sg) (Z.shiftl 1 i) =? 0.

(** [sg_element (g, i)]: the index in [g->slot]. *)
Definition sg_element (sg : SparseGroup) (i : Z) : Z := bit_rank (bits sg) i.

(** [sg_insert]: insert data into the group at position [i]. *)
Definition sg_insert (sg : SparseGroup) (i : Z) (data : Data) : result SparseGroup :=
  let bit := Z.shiftl 1 i in
  let s := bit_rank (bits sg) i in
  let count := Z.shiftr (bits sg) 58 + 1 in
  let slot1 :=
    match slot sg with
    | Some sl =>
        (* realloc to [count] elements, then open a gap at [s] *)
        let sl := resize (Z.to_nat count) None sl in
        memmove sl (Z.to_nat (s + 1)) (Z.to_nat s) (Z.to_nat (count - (s + 1)))
    | None => replicate (Z.to_nat count) None
    end in
  let bits1 := uint64 (bits sg + Z.shiftl 1 58) in
  let bits2 := Z.lor bits1 bit in
  match zstore slot1 s (Some data) with
  | Some sl => Ok {| slot := Some sl; bits := bits2 |}
  | None => Undefined
  end.

(** The [while (p->i < count)] loop of [hash_next]: the first occupied
    slot at or after [i]. *)
Fixpoint next_slot (n : nat) (sl : list (option Data)) (i count : Z)
  : result (option (Data * Z)) :=
  if i <? count then
    match n with
    | O => Timeout
    | S n =>
        match zlookup sl i with
        | None => Undefined
        | Some (Some data) => Ok (Some (data, i))
        | Some None => next_slot n sl (i + 1) count
        end
    end
  else Ok None.

Record HashPointer : Type := { p_g : Z; p_i : Z }.

Definition group_count (sg : SparseGroup) : Z := Z.shiftr (bits sg) 58.

Definition slots_of (sg : SparseGroup) : list (option Data) :=
  match slot sg with Some sl => sl | None => [] end.

(** The part of [hash_next] from the label [next_group] on, entered with
    [p->g] and [p->i]; [n] bounds the number of groups still to visit. *)
Fixpoint next_group (n : nat) (ht : HashTable) (pg pi : Z)
  : result (option Data * HashPointer) :=
  if pg =? last ht then Ok (None, {| p_g := pg; p_i := pi |})
  else
    match n with
    | O => Timeout
    | S n =>
        let pg := pg + 1 in
        match zlookup (table ht) pg with
        | None => Undefined
        | Some sg =>
            let count := group_count sg in
            do r <- next_slot (Z.to_nat count) (slots_of sg) 0 count;
            match r with
            | Some (data, i) => Ok (Some data, {| p_g := pg; p_i := i |})
            | None => next_group n ht pg count
            end
        end
    end.

(** [hash_next (p)] for a pointer into the table [ht]: the item returned (or
    [NULL]) and the pointer after the call. *)
Definition hash_next (ht : HashTable) (p : HashPointer)
  : result (option Data * HashPointer) :=
  match zlookup (table ht) (p_g p) with
  | None => Undefined
  | Some sg =>
      let count := group_count sg in
      let i := p_i p + 1 in
      if i =? count then next_group (length (table ht)) ht (p_g p) i
      else
        do r <- next_slot (Z.to_nat count) (slots_of sg) i count;
        match r with
        | Some (data, i) => Ok (Some data, {| p_g := p_g p; p_i := i |})
        | None => next_group (length (table ht)) ht (p_g p) (Z.max i count)
        end
  end.

(** [hash_iterate (p, ht)] *)
Definition hash_iterate (ht : HashTable) : result (option Data * HashPointer) :=
  hash_next ht {| p_g := 0; p_i := -1 |}.

(** [foreach_h (h, hp, ht)]: the items the loop visits, in order. *)
Fixpoint foreach_h_from (n : nat) (ht : HashTable)
    (r : result (option Data * HashPointer)) : result (list Data) :=
  do x <- r;
  match x with
  | (None, _) => Ok []
  | (Some data, p) =>
      match n with
      | O => Timeout
      | S n =>
          do rest <- foreach_h_from n ht (hash_next ht p);
          Ok (data :: rest)
      end
  end.

(** An upper bound on the number of slots of a table. *)
Definition slot_bound (ht : HashTable) : nat :=
  (64 * length (table ht))%nat.

Definition foreach_h (ht : HashTable) : result (list Data) :=
  foreach_h_from (slot_bound ht) ht (hash_iterate ht).

(** [hash_find]: the [while (1)] loop, [fuel] probes long.  It returns the
    table (with the mark [g], [i] it leaves) and the entry found: the
    group and the index in its [slot], or [NULL]. *)
Fixpoint hash_find_loop (fuel : nat) (ht : HashTable) (key : Key)
    (mask index probes : Z) : result (HashTable * option (Z * Z)) :=
  match fuel with
  | O => Timeout
  | S fuel =>
      let gi := Z.quot index 58 in
      let i := Z.rem index 58 in
      match zlookup (table ht) gi with
      | None => Undefined
      | Some sg =>
          let here := Some {| g_table := table_id ht; g_index := gi |} in
          match slot sg with
          | None =>
              Ok (if g ht is None then set_mark ht here i else ht, None)
          | Some sl =>
              if sg_empty sg i then
                Ok (if g ht is None then set_mark ht here i else ht, None)
              else
                let e := sg_element sg i in
                match zlookup sl e with
                | None => Undefined
                | Some (Some d) =>
                    if compare key (get_key d) =? 0 then Ok (ht, Some (gi, e))
                    else
                      let probes := probes + 1 in
                      hash_find_loop fuel ht key mask
                        (Z.land (index + probes) mask) probes
                | Some None =>
                    let ht := if g ht is None then set_mark ht here i else ht in
                    let probes := probes + 1 in
                    hash_find_loop fuel ht key mask
                      (Z.land (index + probes) mask) probes
                end
          end
      end
  end.

Definition hash_find (fuel : nat) (ht : HashTable) (key : Key)
  : result (HashTable * option (Z * Z)) :=
  let mask := size ht - 1 in
  let index := Z.land (hash key) mask in
  hash_find_loop fuel (set_g ht None) key mask index 0.

(** [hash_init]: a new, zeroed table of [(size + 57) / 58] groups. *)
Definition hash_init (ht : HashTable) (sz : Z) : HashTable :=
  let groups := Z.quot (sz + 57) 58 in
  {| i := i ht; items := 0;
     min := Z.quot (sz * 40) 100;
     max := Z.quot (sz * 80) 100;
     size := sz;
     table_id := S (table_id ht);
     table := replicate (Z.to_nat groups) {| slot := None; bits := 0 |};
     g := g ht;
     last := groups - 1 |}.

(** [hash_new]: [calloc] of the [HashTable], then [hash_init]. *)
Definition hash_new (sz : Z) : HashTable :=
  hash_init {| i := 0; items := 0; min := 0; max := 0; size := 0;
               table_id := O; table := []; g := None; last := 0 |} sz.

(** [*e = data] for an entry [e] returned by [hash_find]. *)
Definition store_entry (ht : HashTable) (e : Z * Z) (v : option Data)
  : result HashTable :=
  match zlookup (table ht) (fst e) with
  | None => Undefined
  | Some sg =>
      match zstore (slots_of sg) (snd e) v with
      | None => Undefined
      | Some sl =>
          match zstore (table ht) (fst e) {| slot := Some sl; bits := bits sg |} with
          | None => Undefined
          | Some t => Ok (set_table ht t)
          end
      end
  end.

(** [*e] *)
Definition load_entry (ht : HashTable) (e : Z * Z) : result (option Data) :=
  match zlookup (table ht) (fst e) with
  | None => Undefined
  | Some sg =>
      match zlookup (slots_of sg) (snd e) with
      | None => Undefined
      | Some v => Ok v
      end
  end.

(** [hash_insert (ht, data)]: [sg_insert (ht->g, ht->i, data)].  The group
    pointer must point into the live table. *)
Definition hash_insert (ht : HashTable) (data : Data) : result HashTable :=
  match g ht with
  | None => Undefined
  | Some p =>
      if Nat.eqb (g_table p) (table_id ht) then
        match zlookup (table ht) (g_index p) with
        | None => Undefined
        | Some sg =>
            do sg' <- sg_insert sg (i ht) data;
            match zstore (table ht) (g_index p) sg' with
            | None => Undefined
            | Some t => Ok (set_table ht t)
            end
        end
      else Undefined
  end.

(** [hash_put] and [hash_resize] call each other; [depth] bounds the
    nesting of resizes, [fuel] the probes of each [hash_find]. *)
Fixpoint hash_put (depth fuel : nat) (ht : HashTable) (data : Data)
  : result HashTable :=
  let key := get_key data in
  do (ht, e) <- hash_find fuel ht key;
  match e with
  | Some e => store_entry ht e (Some data)
  | None =>
      do ht <-
        (if items ht =? max ht then
           match depth with
           | O => Timeout
           | S depth =>
               (* hash_resize (ht, ht->size << 1) *)
               let gt := ht in
               let ht := hash_init ht (Z.shiftl (size ht) 1) in
               do l <- foreach_h gt;
               foldl (fun r d => do h <- r; hash_put depth fuel h d) (Ok ht) l
           end
         else Ok ht);
      do ht <- hash_insert ht data;
      Ok (set_items ht (items ht + 1))
  end.

Definition hash_resize (depth fuel : nat) (ht : HashTable) (sz : Z)
  : result HashTable :=
  let gt := ht in
  let ht := hash_init ht sz in
  do l <- foreach_h gt;
  foldl (fun r d => do h <- r; hash_put depth fuel h d) (Ok ht) l.

Definition hash_delete (depth fuel : nat) (ht : HashTable) (key : Key)
  : result (HashTable * option Data) :=
  do (ht, e) <- hash_find fuel ht key;
  match e with
  | Some e =>
      do tmp <- load_entry ht e;
      do ht <- store_entry ht e None;
      do ht <-
        (if items ht =? min ht then hash_resize depth fuel ht (Z.shiftr (size ht) 1)
         else Ok ht);
      Ok (set_items ht (items ht - 1), tmp)
  | None => Ok (ht, None)
  end.

Definition hash_get (fuel : nat) (ht : HashTable) (key : Key)
  : result (HashTable * option Data) :=
  do (ht, e) <- hash_find fuel ht key;
  match e with
  | Some e => do v <- load_entry ht e; Ok (ht, v)
  | None => Ok (ht, None)
  end.

End Table.

(** [int64_compare]: zero when the keys are equal. *)
Definition int64_compare (x y : Z) : Z := if x =? y then 0 else 1.

(** [int64_hash]: Thomas Wang's 64-bit mix, truncated to [int]. *)
Definition int64_hash (data : Z) : Z :=
  let key := uint64 data in
  let key := uint64 (Z.lxor key 0xffffffffffffffff + Z.shiftl key 21) in
  let key := Z.lxor key (Z.shiftr key 24) in
  let key := uint64 (key + Z.shiftl key 3 + Z.shiftl key 8) in
  let key := Z.lxor key (Z.shiftr key 14) in
  let key := uint64 (key + Z.shiftl key 2 + Z.shiftl key 4) in
  let key := Z.lxor key (Z.shiftr key 28) in
  let key := uint64 (key + Z.shiftl key 31) in
  sint32 key.

(** A table made by [new_int64_hash (size, get_key)], and the calls on it
    with the callbacks that it installs. *)
Section Int64.

Context {Data : Type}.
Variable get_key : Data -> Z.

Definition new_int64_hash (sz : Z) : HashTable (Data := Data) := hash_new sz.

Definition int64_put (depth fuel : nat) :=
  hash_put get_key int64_hash int64_compare depth fuel.
Definition int64_get (fuel : nat) :=
  hash_get get_key int64_hash int64_compare fuel.
Definition int64_delete (depth fuel : nat) :=
  hash_delete get_key int64_hash int64_compare depth fuel.

(** A run of [hash_put] calls, and one of [hash_delete] calls. *)
Definition put_all (depth fuel : nat) (ht : HashTable) (l : list Data)
  : result HashTable :=
  foldl (fun r d => do h <- r; int64_put depth fuel h d) (Ok ht) l.

Definition delete_all (depth fuel : nat) (ht : HashTable) (l : list Z)
  : result HashTable :=
  foldl (fun r k => do h <- r; do (h', _) <- int64_delete depth fuel h k; Ok h')
    (Ok ht) l.

End Int64.

(** [n] keys from [start] on, [step] apart. *)
Fixpoint key_seq (start step : Z) (n : nat) : list Z :=
  match n with
  | O => []
  | S n => start :: key_seq (start + step) step n
  end.

(** The keys [1 .. n], and every other one of them: [1, 3, ..]. *)
Definition keys_upto (n : Z) : list Z := key_seq 1 1 (Z.to_nat n).
Definition every_other (n : Z) : list Z := key_seq 1 2 (Z.to_nat n).

(** The items are 64-bit numbers that are their own key. *)
Definition self_key (data : Z) : Z := data.

(** The device table of [der.c] is made with 64 slots; 52 items are put
    into it and the last one is looked up. *)
Definition put_52_get_last (fuel : nat) : result (option Z) :=
  do h <- put_all self_key 2 fuel (new_int64_hash 64) (keys_upto 52);
  do (_, v) <- int64_get self_key fuel h 52;
  Ok v.

(** A table of two slots: two items are put and deleted in turn, and the
    second one is looked up. *)
Definition two_tombstones : result (HashTable (Data := Z)) :=
  do h <- int64_put self_key 2 4 (new_int64_hash 2) 1;
  do (h, _) <- int64_delete self_key 2 4 h 1;
  do h <- int64_put self_key 2 4 h 3;
  do (h, _) <- int64_delete self_key 2 4 h 3;
  Ok h.

Definition get_deleted (fuel : nat) : result (option Z) :=
  do h <- two_tombstones;
  do (_, v) <- int64_get self_key fuel h 3;
  Ok v.

(** The round trip: 10000 items are put into a table made with [size0]
    slots, then every other one is deleted.  The results are [ht->items]
    after the insertions, [ht->items] after the deletions, the number of
    items that the iteration visits then, and the deleted keys among them. *)
Definition round_trip (size0 : Z) : result (Z * Z * Z * list Z) :=
  let fuel := Z.to_nat 16384 in
  do h <- put_all self_key 2 fuel (new_int64_hash size0) (keys_upto 10000);
  do h1 <- delete_all self_key 2 fuel h (every_other 5000);
  do l <- foreach_h h1;
  Ok (items h, items h1, Z.of_nat (length l), List.filter Z.odd l).

(** A table of four slots: two items are put, then both are deleted.  The
    results are [ht->items] and the items that the iteration visits. *)
Definition put_2_delete_2 : result (Z * list Z) :=
  do h <- put_all self_key 2 8 (new_int64_hash 4) [1; 2];
  do h <- delete_all self_key 2 8 h [1; 2];
  do l <- foreach_h h;
  Ok (items h, l).

End Hash.

(** * exi_parse.c *)

Module Exi.

(** The fields of [Parser] that the EXI primitives use.  [mem] is the
    array that [ptr] and [end] point into, both kept as offsets from its
    start.  [ux] is a [uint64_t], the widest type that [exi_parse_value]
    stores it to. *)
Record Parser : Type := {
  mem : list Byte.byte;
  ptr : Z;
  end_ : Z;
  bit : Z;
  state : ParseState;
  ux : Z;
  ux_n : Z;
  schemaId : list Z               (* [p->schema->schemaId], without the NUL *)
}.

Definition set_ptr (p : Parser) (x : Z) : Parser :=
  {| mem := mem p; ptr := x; end_ := end_ p; bit := bit p; state := state p;
     ux := ux p; ux_n := ux_n p; schemaId := schemaId p |}.

Definition set_bit (p : Parser) (x : Z) : Parser :=
  {| mem := mem p; ptr := ptr p; end_ := end_ p; bit := x; state := state p;
     ux := ux p; ux_n := ux_n p; schemaId := schemaId p |}.

Definition set_state (p : Parser) (x : ParseState) : Parser :=
  {| mem := mem p; ptr := ptr p; end_ := end_ p; bit := bit p; state := x;
     ux := ux p; ux_n := ux_n p; schemaId := schemaId p |}.

Definition set_ux (p : Parser) (x : Z) : Parser :=
  {| mem := mem p; ptr := ptr p; end_ := end_ p; bit := bit p; state := state p;
     ux := x; ux_n := ux_n p; schemaId := schemaId p |}.

Definition set_ux_n (p : Parser) (x : Z) : Parser :=
  {| mem := mem p; ptr := ptr p; end_ := end_ p; bit := bit p; state := state p;
     ux := ux p; ux_n := x; schemaId := schemaId p |}.

(** [*p->ptr]: a read outside the array is undefined. *)
Definition deref (p : Parser) : result Z :=
  match zlookup (mem p) (ptr p) with
  | Some b => Ok (byte_val b)
  | None => Undefined
  end.

(** [need (p, n)] fails: [(p->end - p->ptr) < (n)]. *)
Definition lacks (p : Parser) (n : Z) : bool := end_ p - ptr p <? n.

(** [parse_byte (&b, p)]: the value returned, [*b] and the parser after the
    call; [b] is [*b] before it. *)
Definition parse_byte (b : Z) (p : Parser) : result (Z * Z * Parser) :=
  if negb (bit p =? 0) then
    if lacks p 2 then Ok (0, b, p)
    else
      do x <- deref p;
      let b := uint8 (Z.shiftl x (bit p)) in
      let p := set_ptr p (ptr p + 1) in
      do y <- deref p;
      let b := uint8 (Z.lor b (Z.shiftr y (8 - bit p))) in
      Ok (1, b, p)
  else
    if lacks p 1 then Ok (0, b, p)
    else
      do x <- deref p;
      Ok (1, x, set_ptr p (ptr p + 1)).

Section Uint.

(** [shl x n] is the value of the C expression [x << n] at type [int]. *)
Variable shl : Z -> Z -> Z.

(** The [do ... while (b & 0x80)] loop of [parse_uint]; a group is read in
    each round, and [ux_n] stops the loop at 70. *)
Fixpoint parse_uint_loop (fuel : nat) (p : Parser) : result (Z * Parser) :=
  match fuel with
  | O => Timeout
  | S fuel =>
      if ux_n p =? 70 then Ok (0, set_state p PARSE_INVALID)
      else
        do r <- parse_byte 0 p;
        let '(ok, b, p) := r in
        if ok =? 0 then Ok (0, p)
        else
          let p := set_ux p (Z.lor (ux p) (uint64 (shl (Z.land b 0x7f) (ux_n p)))) in
          let p := set_ux_n p (ux_n p + 7) in
          if negb (Z.land b 0x80 =? 0) then parse_uint_loop fuel p
          else Ok (1, set_ux_n p 0)
  end.

(** [parse_uint]: unsigned integers in groups of seven bits. *)
Definition parse_uint (fuel : nat) (p : Parser) : result (Z * Parser) :=
  let p := if ux_n p =? 0 then set_ux p 0 else p in
  parse_uint_loop fuel p.

End Uint.

(** [parse_bit (&bit, p)]; [b] is [*bit] before the call. *)
Definition parse_bit (b : Z) (p : Parser) : result (Z * Z * Parser) :=
  if lacks p 1 then Ok (0, b, p)
  else
    do x <- deref p;
    let b := Z.land (Z.shiftr x (7 - bit p)) 1 in
    let p := set_bit p (bit p + 1) in
    let p := if negb (Z.land (bit p) 8 =? 0)
             then set_bit (set_ptr p (ptr p + 1)) 0 else p in
    Ok (1, b, p).

(** The [while (bytes--)] loop of [parse_bits]. *)
Fixpoint fetch_bytes (bytes : nat) (bits : Z) (p : Parser) : result (Z * Parser) :=
  match bytes with
  | O => Ok (bits, p)
  | S bytes =>
      let p := set_ptr p (ptr p + 1) in
      do x <- deref p;
      fetch_bytes bytes (Z.lor (uint32 (Z.shiftl bits 8)) x) p
  end.

(** [parse_bits (&result, p, n)]: parse [n] bits from the bit stream; [r] is
    [*result] before the call. *)
Definition parse_bits (r : Z) (p : Parser) (n : Z) : result (Z * Z * Parser) :=
  let bit0 := bit p + n in
  let bytes := Z.shiftr bit0 3 in
  do bits <- deref p;
  let bit1 := Z.land bit0 7 in
  if lacks p (if negb (bit1 =? 0) then bytes + 1 else bytes) then Ok (0, r, p)
  else if bytes <? 0 then Undefined
  else
    let p := set_bit p bit1 in
    do r <- fetch_bytes (Z.to_nat bytes) bits p;
    let '(bits, p) := r in
    Ok (1, Z.land (Z.shiftr bits (8 - bit1)) (uint32 (Z.lnot (Z.shiftl (-1) n))), p).

(** Modelled from the spec: [utf8_encode (s, c)] is not in the sources
    given; "EXI encodes each code point as a uint and the driver re-encodes
    to UTF-8".  The bytes stored at [s] for the code point [c]. *)
Definition utf8_encode (c : Z) : list Z :=
  if c <? 0x80 then [c]
  else if c <? 0x800 then
    [Z.lor 0xc0 (Z.shiftr c 6); Z.lor 0x80 (Z.land c 0x3f)]
  else if c <? 0x10000 then
    [Z.lor 0xe0 (Z.shiftr c 12); Z.lor 0x80 (Z.land (Z.shiftr c 6) 0x3f);
     Z.lor 0x80 (Z.land c 0x3f)]
  else
    [Z.lor 0xf0 (Z.land (Z.shiftr c 18) 0x07);
     Z.lor 0x80 (Z.land (Z.shiftr c 12) 0x3f);
     Z.lor 0x80 (Z.land (Z.shiftr c 6) 0x3f); Z.lor 0x80 (Z.land c 0x3f)].

(** The bytes of a C string: those before the first NUL. *)
Fixpoint cstr (s : list Z) : list Z :=
  match s with
  | [] => []
  | c :: s => if c =? 0 then [] else c :: cstr s
  end.

(** [streq (a, b)]: [strcmp] finds no difference. *)
Definition streq (a b : list Z) : bool := bool_decide (cstr a = cstr b).

Section Header.

Variable shl : Z -> Z -> Z.

(** The loop of [parse_literal (p, s, n)] for [n >= 0]; the result of
    [parse_uint] is not looked at.  [s] collects the bytes stored. *)
Fixpoint parse_literal_loop (fuel : nat) (n : nat) (p : Parser) (s : list Z)
  : result (Parser * list Z) :=
  match n with
  | O => Ok (p, s)
  | S n =>
      do r <- parse_uint shl fuel p;
      let '(_, p) := r in
      parse_literal_loop fuel n p (s ++ utf8_encode (ux p))
  end.

(** [parse_literal (p, s, n)] into an array of [cap] bytes.  Below zero
    [while (n--)] does not come to an end before [s] is overrun: every
    round stores at least one byte. *)
Definition parse_literal (fuel : nat) (p : Parser) (cap : Z) (n : Z)
  : result (Parser * list Z) :=
  if n <? 0 then Undefined
  else
    do r <- parse_literal_loop fuel (Z.to_nat n) p [];
    let '(p, s) := r in
    if Z.of_nat (length s) + 1 <=? cap then Ok (p, s) else Undefined.

(** ["$EXI"] *)
Definition cookie : list Z := [0x24; 0x45; 0x58; 0x49].

(** [if (memcmp (p->ptr, "$EXI", 4) == 0) p->ptr += 4;] the comparison
    reads four bytes. *)
Definition skip_cookie (p : Parser) : result Parser :=
  let m := take 4 (drop (Z.to_nat (ptr p)) (mem p)) in
  if (ptr p <? 0) || negb (Nat.eqb (length m) 4) then Undefined
  else if bool_decide (byte_val <$> m = cookie) then Ok (set_ptr p (ptr p + 4))
  else Ok p.

(** [exi_parse_header]: the value returned and the parser after the call. *)
Definition exi_parse_header (fuel : nat) (p : Parser) : result (Z * Parser) :=
  do p <- skip_cookie p;
  if lacks p 5 then Ok (0, p)
  else
    do c <- deref p;
    let p := set_ptr p (ptr p + 1) in
    if c =? 0xa0 then
      do r <- parse_bits 0 p 6;
      let '(_, x, p) := r in
      do r <- parse_uint shl fuel p;
      let '(_, p) := r in
      let n := sint32 (ux p) in
      if negb (n =? 0) && (n <? 64) then
        let n := n - 2 in
        do r <- parse_literal fuel p 64 n;
        let '(p, schemaId_) := r in
        if (x =? 0xc) && streq schemaId_ (schemaId p) then
          do r <- parse_bit n p;
          let '(_, n, p) := r in
          Ok (n, p)
        else Ok (0, set_state p PARSE_INVALID)
      else Ok (0, set_state p PARSE_INVALID)
    else Ok (0, set_state p PARSE_INVALID).

End Header.

(** [exi_rebuffer (p, data, length)]: the parser goes on in a new buffer. *)
Definition exi_rebuffer (p : Parser) (data : list Byte.byte) : Parser :=
  {| mem := data; ptr := 0; end_ := Z.of_nat (length data); bit := bit p;
     state := state p; ux := ux p; ux_n := ux_n p; schemaId := schemaId p |}.

(** [exi_rebuffer] as [exi_parse_init] calls it on a zeroed [Parser]. *)
Definition exi_parse_init (schema_id : list Z) (data : list Byte.byte) : Parser :=
  {| mem := data; ptr := 0; end_ := Z.of_nat (length data); bit := 0;
     state := PARSE_NEXT; ux := 0; ux_n := 0; schemaId := schema_id |}.

(** The number of bytes that [parse_byte] and [parse_bits] ask [need] for. *)
Definition byte_need (p : Parser) : Z := if bit p =? 0 then 1 else 2.

Definition bits_need (p : Parser) (n : Z) : Z :=
  let b := bit p + n in
  if Z.land b 7 =? 0 then Z.shiftr b 3 else Z.shiftr b 3 + 1.

(** The value that the specification gives to a sequence of groups: the
    payloads of seven bits, the least significant group first. *)
Fixpoint le_groups (l : list Z) : Z :=
  match l with
  | [] => 0
  | b :: l => Z.land b 0x7f + 128 * le_groups l
  end.

(** Whatever an [int] shift yields, it is an [int]. *)
Definition int_valued (shl : Z -> Z -> Z) : Prop :=
  forall x n, - 2 ^ 31 <= shl x n < 2 ^ 31.

(** A 32-bit [int] that is converted to [uint64_t] is sign-extended: bit
    35 is a copy of bit 31.  An OR of such values is of the same kind. *)
Definition sign_extended (v : Z) : Prop := Z.testbit v 35 = Z.testbit v 31.

(** Six groups that encode [2 ^ 35]. *)
Definition six_groups : Parser :=
  exi_parse_init [] [x80; x80; x80; x80; x80; x01]%byte.

(** What [parse_uint] leaves in [p->ux] after the groups [bs], the first of
    them shifted by [n], when it held [acc] before. *)
Fixpoint ux_after (shl : Z -> Z -> Z) (bs : list Byte.byte) (n acc : Z) : Z :=
  match bs with
  | [] => acc
  | b :: bs =>
      ux_after shl bs (n + 7) (Z.lor acc (uint64 (shl (Z.land (byte_val b) 0x7f) n)))
  end.

(** The continuation bit of a group. *)
Definition continues (b : Byte.byte) : bool := negb (Z.land (byte_val b) 0x80 =? 0).

(** A parser at a byte boundary whose next bytes are [bs]. *)
Definition reads (p : Parser) (bs : list Byte.byte) : Prop :=
  bit p = 0 /\ 0 <= ptr p /\
  take (length bs) (drop (Z.to_nat (ptr p)) (mem p)) = bs /\
  ptr p + Z.of_nat (length bs) <= end_ p.

(** [shl] is the shift of C wherever C defines it at type [int]. *)
Definition exact_shl (shl : Z -> Z -> Z) : Prop :=
  forall x n, 0 <= x -> 0 <= n < 32 -> x * 2 ^ n < 2 ^ 31 -> shl x n = x * 2 ^ n.

(** The parser after the loop of [parse_uint] has read the groups [cs]. *)
Definition advanced (shl : Z -> Z -> Z) (p : Parser) (cs : list Byte.byte) : Parser :=
  {| mem := mem p; ptr := ptr p + Z.of_nat (length cs); end_ := end_ p;
     bit := bit p; state := state p;
     ux := ux_after shl cs (ux_n p) (ux p);
     ux_n := ux_n p + 7 * Z.of_nat (length cs); schemaId := schemaId p |}.

(** Ten groups with the continuation bit set, and an eleventh. *)
Definition ten_continued : Parser :=
  exi_parse_init [] [x80; x80; x80; x80; x80; x80; x80; x80; x80; x80; x01]%byte.

(** Three groups that encode 16684, and a byte after them. *)
Definition three_groups : Parser :=
  exi_parse_init [] [xac; x82; x01; xff]%byte.

(** Four groups that come in two buffers, and in one. *)
Definition two_of_four : Parser := exi_parse_init [] [x80; x81]%byte.

Definition four_groups : Parser := exi_parse_init [] [x80; x81; x82; x03]%byte.

(** The bytes of the header as the specification gives them, and as the
    options document is packed into bits:
    [0 | 01 | 10 | 0 | 0x04 | 0x53 0x31 | 1]. *)
Definition S1 : list Z := [0x53; 0x31].

Definition header_spec : Parser :=
  exi_parse_init S1 [x24; x45; x58; x49; xa0; x60; x04; x53; x31; x80]%byte.

Definition header_packed : Parser :=
  exi_parse_init S1 [x24; x45; x58; x49; xa0; x30; x11; x4c; xc6]%byte.

(** A header whose first byte is not [A0]. *)
Definition header_80 : Parser :=
  exi_parse_init S1 [x24; x45; x58; x49; x80; x30; x11; x4c; xc6]%byte.

End Exi.

(** [x << n] at type [int] as the usual targets compute it: the count is
    taken modulo 32 and the result is cut to 32 bits.  Where C defines the
    shift this is its value. *)
Definition int_shl (x n : Z) : Z := sint32 (Z.shiftl x (Z.land n 31)).

(** * schema.c: simple types *)

Module Schema.

Definition XS_NULL : Z := 0.
Definition XS_STRING : Z := 1.
Definition XS_BOOLEAN : Z := 2.
Definition XS_HEX_BINARY : Z := 3.
Definition XS_ANY_URI : Z := 4.
Definition XS_LONG : Z := 5.
Definition XS_INT : Z := 6.
Definition XS_SHORT : Z := 7.
Definition XS_BYTE : Z := 8.
Definition XS_ULONG : Z := 9.
Definition XS_UINT : Z := 10.
Definition XS_USHORT : Z := 11.
Definition XS_UBYTE : Z := 12.

Definition ST_SIMPLE : Z := 0x8000.
Definition xs_type (b l : Z) : Z := Z.lor (Z.shiftl l 4) b.
Definition is_boolean (xs : Z) : bool := Z.lxor xs ST_SIMPLE =? XS_BOOLEAN.

End Schema.

(** * xml_parse.c *)

Module Xml.

Import Schema.

(** Text content is a C string: the characters before the NUL. *)
Definition code (c : ascii) : Z := Z.of_N (N_of_ascii c).

(** [*data] *)
Definition peek (data : string) : Z :=
  match data with
  | EmptyString => 0
  | String c _ => code c
  end.

(** [strlen (data)] and [streq (a, b)] stop at the first NUL. *)
Fixpoint cstr (s : string) : string :=
  match s with
  | EmptyString => EmptyString
  | String c s => if code c =? 0 then EmptyString else String c (cstr s)
  end.

Definition strlen (s : string) : Z := Z.of_nat (String.length (cstr s)).
Definition streq (a b : string) : bool := String.eqb (cstr a) (cstr b).

(** The object a [void *value] points at, at the type the schema gives. *)
Inductive Cell : Type :=
| Flags (w : Z)                   (* [uint32_t]: the flag word of an object *)
| Bytes (a : list Z)              (* [char [n]] or [uint8_t [n]] *)
| Pointer (s : option string)     (* [char *] *)
| Number (v : Z).                 (* an integer field *)

(** The fields of [Parser] that [parse_value] uses; [ptr] is the text that
    [p->ptr] points at. *)
Record Parser : Type := {
  se_type : Z;                    (* [p->se->type] *)
  ptr : string;
  flag : Z;
  state : ParseState
}.

Definition set_state (p : Parser) (x : ParseState) : Parser :=
  {| se_type := se_type p; ptr := ptr p; flag := flag p; state := x |}.

Section Token.

(** From [xml_token.c], which is not among the sources given.
    [hex_digit (c)] is zero unless [c] is a hexadecimal digit, and else the
    character code that stands for zero in its range; [only (data)] holds
    when nothing but the accepted end of a value follows; [unsigned_int]
    is the macro [only (number64 (x, data))]: the number read, if any. *)
Variable hex_digit : Z -> Z.
Variable only : string -> bool.
Variable unsigned_int : string -> option Z.

(** [signed_int (&y, data)] *)
Definition signed_int (data : string) : option Z :=
  let '(sign, data) :=
    match data with
    | String c rest => if code c =? 45 then (-1, rest) else (1, data)
    | EmptyString => (1, data)
    end in
  match unsigned_int data with
  | Some u => Some (sint64 (sint64 u * sign))
  | None => None
  end.

(** The [while] loop of [parse_hex]: [None] when the loop returns 0, else
    [m] and [data] at its end; in both cases the bytes of [value]. *)
Fixpoint parse_hex_loop (data : string) (value : list Z) (n m : Z)
  : result (option (Z * string) * list Z) :=
  let d := peek data in
  let c := hex_digit d in
  if c =? 0 then Ok (Some (m, data), value)
  else if m =? n then Ok (None, value)
  else
    match data with
    | EmptyString => Undefined    (* [data++] leaves the string *)
    | String _ data1 =>
        let x := Z.shiftl (d - c) 4 in
        let d := peek data1 in
        let c := hex_digit d in
        if c =? 0 then Ok (None, value)
        else
          match data1 with
          | EmptyString => Undefined
          | String _ data2 =>
              match zstore value m (uint8 (Z.lor x (d - c))) with
              | None => Undefined
              | Some value => parse_hex_loop data2 value n (m + 1)
              end
          end
    end.

(** [parse_hex (value, n, data)]: the value returned and the bytes of
    [value] after the call. *)
Definition parse_hex (value : list Z) (n : Z) (data : string)
  : result (Z * list Z) :=
  do r <- parse_hex_loop data value n 0;
  match r with
  | (None, value) => Ok (0, value)
  | (Some (m, data), value) =>
      if (m =? 0) || negb (only data) then Ok (0, value)
      else
        let n := n - m in
        if negb (n =? 0) then
          if (n <? 0) || (Z.of_nat (length value) <? n + m) then Undefined
          else
            let value := memmove value (Z.to_nat n) 0 (Z.to_nat m) in
            Ok (1, memset value 0 (Z.to_nat n))
        else Ok (1, value)
  end.

(** The characters of a C string, as [strcpy] stores them. *)
Fixpoint chars (s : string) : list Z :=
  match s with
  | EmptyString => []
  | String c s => code c :: chars s
  end.

Definition pack (dest : Cell) (x : option Z) (conv : Z -> Z) : result (Z * Cell) :=
  match dest with
  | Number _ =>
      match x with
      | Some v => Ok (1, Number (conv v))
      | None => Ok (0, dest)
      end
  | _ => Undefined
  end.

Definition sint (w : Z) (x : Z) : Z :=
  let y := x mod 2 ^ w in if y <? 2 ^ (w - 1) then y else y - 2 ^ w.

(** [parse_value (p, value)]: the value returned, the object at [value]
    and the parser after the call. *)
Definition parse_value (p : Parser) (value : Cell) : result (Z * Cell * Parser) :=
  let type := Z.lxor (se_type p) ST_SIMPLE in
  let data := ptr p in
  let n := Z.shiftr type 4 in
  let ret (r : result (Z * Cell)) := do x <- r; Ok (x, p) in
  match Z.land type 0xf with
  | 1 => (* XS_STRING *)
      if negb (n =? 0) then
        if strlen data >? n - 1 then Ok (0, value, p)
        else
          match value with
          | Bytes a =>
              let s := chars (cstr data) ++ [0] in
              if Z.of_nat (length a) <? Z.of_nat (length s) then Undefined
              else Ok (1, Bytes (s ++ drop (length s) a), p)
          | _ => Undefined
          end
      else
        match value with
        | Pointer _ => Ok (1, Pointer (Some (cstr data)), p)
        | _ => Undefined
        end
  | 2 => (* XS_BOOLEAN *)
      match value with
      | Flags w =>
          if streq data "true" || streq data "1" then
            Ok (1, Flags (Z.lor w (uint32 (Z.shiftl 1 (flag p)))), p)
          else if negb (streq data "false" || streq data "0") then
            Ok (0, value, set_state p PARSE_INVALID)
          else Ok (1, value, p)
      | _ => Undefined
      end
  | 3 => (* XS_HEX_BINARY *)
      match value with
      | Bytes a => do r <- parse_hex a n data; Ok (fst r, Bytes (snd r), p)
      | _ => Undefined
      end
  | 4 => (* XS_ANY_URI *)
      match value with
      | Pointer _ => Ok (1, Pointer (Some (cstr data)), p)
      | _ => Undefined
      end
  | 5 => ret (pack value (signed_int data) (sint 64))
  | 6 => ret (pack value (signed_int data) (sint 32))
  | 7 => ret (pack value (signed_int data) (sint 16))
  | 8 => ret (pack value (signed_int data) (sint 8))
  | 9 => ret (pack value (unsigned_int data) uint64)
  | 10 => ret (pack value (unsigned_int data) uint32)
  | 11 => ret (pack value (unsigned_int data) (fun x => Z.land x 0xffff))
  | 12 => ret (pack value (unsigned_int data) uint8)
  | _ => Ok (0, value, p)
  end.

End Token.

(** Modelled from the spec: [hex_digit] is in [xml_token.c], which is not
    among the sources given; "hexBinary accepts a stream of hex digit
    pairs", and ["ab12"] is stored as [AB 12]. *)
Definition hex_digit (c : Z) : Z :=
  if (48 <=? c) && (c <=? 57) then 48
  else if (97 <=? c) && (c <=? 102) then 97 - 10
  else if (65 <=? c) && (c <=? 70) then 65 - 10
  else 0.

(** Modelled from the spec: [only] is in [xml_token.c]; the value ends
    where the string does. *)
Definition only (data : string) : bool := peek data =? 0.

(** The text made of the characters [l] followed by [rest]. *)
Fixpoint prepend (l : list ascii) (rest : string) : string :=
  match l with
  | [] => rest
  | c :: l => String c (prepend l rest)
  end.

(** The characters of a sequence of pairs of digits. *)
Definition pair_chars (ps : list (ascii * ascii)) : list ascii :=
  flat_map (fun p => [fst p; snd p]) ps.

Section HexPairs.

Variable hex_digit : Z -> Z.

Definition is_hex (c : ascii) : Prop := hex_digit (code c) <> 0.

Definition hex_pair (p : ascii * ascii) : Prop := is_hex (fst p) /\ is_hex (snd p).

(** The byte that a pair of hexadecimal digits stands for. *)
Definition hex_byte (p : ascii * ascii) : Z :=
  let d1 := code (fst p) in
  let d2 := code (snd p) in
  uint8 (Z.lor (Z.shiftl (d1 - hex_digit d1) 4) (d2 - hex_digit d2)).

End HexPairs.

End Xml.

(** * der.c *)

Module Der.

(** Addresses of event blocks, resource stubs and devices. *)
Abbreviation Ptr := nat.

(** The status of an event block. *)
Inductive Status : Type :=
| Scheduled
| Active
| Cancelled
| Superseded
| Aborted
| Complete.

(** The fields of an [EventBlock] that [der.c] reads and writes. *)
Record EventBlock : Type := {
  event : Ptr;
  program : Ptr;
  status : Status;
  der : Z                        (* bitmask of the DER control modes *)
}.

Definition set_status (eb : EventBlock) (st : Status) : EventBlock :=
  {| event := event eb; program := program eb; status := st; der := der eb |}.

(** The event blocks in memory, by address. *)
Abbreviation Heap := (gmap Ptr EventBlock).

(** [Schedule]: the three block lists hold addresses of event blocks, and
    [blocks] is the hash table of all event blocks of the schedule. *)
Record Schedule : Type := {
  scheduled : list Ptr;
  active : list Ptr;
  superseded : list Ptr;
  device : Ptr;
  context : Ptr;
  blocks : Hash.HashTable (Data := Ptr)
}.

Record DefaultControl : Type := {
  dderc : Ptr;
  dc_context : Ptr;
  dc_active : Z
}.

(** The fields of a [DerDevice] that the default controls use. *)
Record DerDevice : Type := {
  d_derpl : list Ptr;
  d_defaults : list DefaultControl;
  d_active : Z
}.

(** What [insert_event] queues: the subject and the kind of event. *)
Inductive Event : Type :=
| DEFAULT_START (n : DefaultControl)
| DEFAULT_END (n : DefaultControl).

(** The reasons of a response to the server. *)
Inductive ResponseStatus : Type :=
| EventReceived
| EventStarted
| EventCompleted
| EventSuperseded
| EventCancelled
| EventAbortedServer
| EventAbortedProgram.

(** A call [device_response (device, event, status)]. *)
Record Response : Type := {
  r_device : Ptr;
  r_event : Ptr;
  r_status : ResponseStatus
}.

(** [find_by_data (list, data)]: is there a node with this [data]?  The
    list functions are in [list.c], not among the sources given; they are
    the usual ones. *)
Definition find_by_data (l : list Ptr) (data : Ptr) : bool :=
  bool_decide (data ∈ l).

(** [insert_default] *)
Definition insert_default (d : list DefaultControl) (dderc_ : Ptr)
    (context_ : Ptr) (active_ : Z) : list DefaultControl :=
  {| dderc := dderc_; dc_context := context_; dc_active := active_ |} :: d.

(** Modelled from the spec: [list_subtract (a, b)], "the set difference of
    the previous list minus the new list", compared by the [data] of the
    nodes, which is [dderc] in a [DefaultControl]. *)
Definition list_subtract (a b : list DefaultControl) : list DefaultControl :=
  List.filter (fun n => negb (find_by_data (dderc <$> b) (dderc n))) a.

Section Defaults.

(** The resource helpers are not among the sources given:
    [default_control t] is [resource_data (get_subordinate (t,
    SE_DefaultDERControl))] for a program [t], if it has one, and
    [se_flags c] the flag word of its [DERControlBase]. *)
Variable default_control : Ptr -> option Ptr.
Variable se_flags : Ptr -> Z.

(** [foreach (eb, s->active) mask |= eb->der] *)
Fixpoint active_mask (h : Heap) (l : list Ptr) (mask : Z) : result Z :=
  match l with
  | [] => Ok mask
  | eb :: l =>
      match h !! eb with
      | None => Undefined
      | Some b => active_mask h l (Z.lor mask (der b))
      end
  end.

(** The [while (l && mask)] loop of [update_defaults]: the list [m] and
    the events queued. *)
Fixpoint defaults_loop (d : DerDevice) (dp : Ptr) (l : list Ptr) (mask : Z)
    (m : list DefaultControl) (ev : list Event)
  : list DefaultControl * list Event :=
  match l with
  | [] => (m, ev)
  | t :: l =>
      if mask =? 0 then (m, ev)
      else
        match default_control t with
        | Some c =>
            let flags := se_flags c in
            let active_ := Z.land flags mask in
            if negb (active_ =? 0) then
              let mask := Z.land mask (uint32 (Z.lnot flags)) in
              let m := insert_default m c dp active_ in
              let ev :=
                if negb (find_by_data (dderc <$> d_defaults d) c)
                then ev ++ [DEFAULT_START
                              {| dderc := c; dc_context := dp; dc_active := active_ |}]
                else ev in
              defaults_loop d dp l mask m ev
            else defaults_loop d dp l mask m ev
        | None => defaults_loop d dp l mask m ev
        end
  end.

(** [update_defaults (s)], where [d] is the device at [s->context]: the
    device after the call and the events queued. *)
Definition update_defaults (s : Schedule) (h : Heap) (d : DerDevice)
  : result (DerDevice * list Event) :=
  do mask <- active_mask h (active s) 0;
  let act := mask in
  let mask := uint32 (Z.lnot mask) in
  let '(m, ev) := defaults_loop d (context s) (d_derpl d) mask [] [] in
  let n := list_subtract (d_defaults d) m in
  let ev := ev ++ (DEFAULT_END <$> n) in
  Ok ({| d_derpl := d_derpl d; d_defaults := reverse m; d_active := act |}, ev).

End Defaults.

(** Modelled from the spec: [remove_block (s, eb)] is in the scheduler, not
    among the sources given; it must "remove the block from the schedule".
    The block leaves the three lists and is not written to. *)
Definition remove_block (s : Schedule) (eb : Ptr) : Schedule :=
  let keep := List.filter (fun x => negb (Nat.eqb x eb)) in
  {| scheduled := keep (scheduled s); active := keep (active s);
     superseded := keep (superseded s); device := device s;
     context := context s; blocks := blocks s |}.

(** The body of the loop of [remove_programs] for the block at [eb]. *)
Definition remove_step (derpl : list Ptr)
    (st : result (Schedule * Heap * list Response)) (eb : Ptr)
  : result (Schedule * Heap * list Response) :=
  do x <- st;
  let '(s, h, out) := x in
  match h !! eb with
  | None => Undefined
  | Some b =>
      if find_by_data derpl (program b) then
        let s := remove_block s eb in
        let out :=
          match status b with
          | Active =>
              out ++ [{| r_device := device s; r_event := event b;
                         r_status := EventAbortedProgram |}]
          | _ => out
          end in
        Ok (s, <[eb := set_status b Aborted]> h, out)
      else Ok (s, h, out)
  end.

(** [remove_programs (s, derpl)]: the schedule, the event blocks and the
    responses sent. *)
Definition remove_programs (s : Schedule) (derpl : list Ptr) (h : Heap)
  : result (Schedule * Heap * list Response) :=
  match derpl with
  | [] => Ok (s, h, [])
  | _ =>
      do l <- Hash.foreach_h (blocks s);
      foldl (remove_step derpl) (Ok (s, h, [])) l
  end.

(** Is the block at [eb] one of the blocks [l] of the schedule, and is its
    program in [derpl]? *)
Definition removed (derpl : list Ptr) (h : Heap) (l : list Ptr) (eb : Ptr) : bool :=
  bool_decide (eb ∈ l) &&
  match h !! eb with
  | Some b => find_by_data derpl (program b)
  | None => false
  end.

Definition is_active (st : Status) : bool :=
  match st with Active => true | _ => false end.

(** The response that the removal of the block at [eb] calls for, if any. *)
Definition abort_response (s : Schedule) (derpl : list Ptr) (h : Heap) (eb : Ptr)
  : option Response :=
  match h !! eb with
  | Some b =>
      if find_by_data derpl (program b) && is_active (status b) then
        Some {| r_device := device s; r_event := event b;
                r_status := EventAbortedProgram |}
      else None
  | None => None
  end.
(** The union of the [der] masks of a list of blocks. *)
Definition union_der (ebs : list EventBlock) : Z := foldr Z.lor 0 (der <$> ebs).

(** No control mode in common. *)
Definition disjoint (a b : Z) : Prop := Z.land a b = 0.

(** A schedule of three blocks, two of them of the program at 21, and the
    default controls of the programs at 21 and 22. *)
Definition sample_blocks : Hash.HashTable (Data := Ptr) :=
  match Hash.put_all (fun p : Ptr => Z.of_nat p) 2 8 (Hash.new_int64_hash 8)
          [1; 2; 3]%nat with
  | Ok t => t
  | _ => Hash.hash_new 8
  end.

Definition sample_heap : Heap :=
  <[1%nat := {| event := 11; program := 21; status := Active; der := 1 |}]>
  (<[2%nat := {| event := 12; program := 22; status := Scheduled; der := 4 |}]>
  (<[3%nat := {| event := 13; program := 21; status := Scheduled; der := 2 |}]> ∅)).

Definition sample_schedule : Schedule :=
  {| scheduled := [2; 3]%nat; active := [1]%nat; superseded := [];
     device := 7%nat; context := 8%nat; blocks := sample_blocks |}.

Definition sample_device : DerDevice :=
  {| d_derpl := [21; 22]%nat; d_defaults := []; d_active := 0 |}.

Definition sample_default_control (t : Ptr) : option Ptr :=
  match t with
  | 21%nat => Some 31%nat
  | 22%nat => Some 32%nat
  | _ => None
  end.

Definition sample_se_flags (c : Ptr) : Z :=
  match c with
  | 31%nat => 3
  | 32%nat => 14
  | _ => 0
  end.

(** What the loop of [update_defaults] keeps true of the list [m]: the
    masks of its nodes have no bit in common with the modes still to be
    covered, with the active modes, or with each other. *)
Definition defaults_ok (act mask : Z) (m : list DefaultControl) : Prop :=
  disjoint mask act /\
  Forall (fun n => disjoint (dc_active n) mask /\ disjoint (dc_active n) act) m /\
  ForallOrdPairs (fun n1 n2 => disjoint (dc_active n1) (dc_active n2)) m.

(** The fields of [SE_DERControlBase_t] that hold a value, in the order in
    which [copy_der_base] copies them. *)
Inductive Field : Type :=
| opModFixedPFAbsorbW | opModFixedPFInjectW | opModFixedVar | opModFixedW
| opModFreqDroop | opModFreqWatt | opModHFRTMayTrip | opModHFRTMustTrip
| opModHVRTMayTrip | opModHVRTMomentaryCessation | opModHVRTMustTrip
| opModLFRTMayTrip | opModLFRTMustTrip | opModLVRTMayTrip
| opModLVRTMomentaryCessation | opModLVRTMustTrip | opModMaxLimW
| opModTargetVar | opModTargetW | opModVoltVar | opModVoltWatt | opModWattPF
| opModWattVar | rampTms.

(** The two boolean fields, kept in the flag word alone. *)
Inductive BoolField : Type := opModConnect | opModEnergize.

#[global] Instance Field_eq_dec : EqDecision Field.
Proof. solve_decision. Defined.

Definition copy_fields : list Field :=
  [opModFixedPFAbsorbW; opModFixedPFInjectW; opModFixedVar; opModFixedW;
   opModFreqDroop; opModFreqWatt; opModHFRTMayTrip; opModHFRTMustTrip;
   opModHVRTMayTrip; opModHVRTMomentaryCessation; opModHVRTMustTrip;
   opModLFRTMayTrip; opModLFRTMustTrip; opModLVRTMayTrip;
   opModLVRTMomentaryCessation; opModLVRTMustTrip; opModMaxLimW;
   opModTargetVar; opModTargetW; opModVoltVar; opModVoltWatt; opModWattPF;
   opModWattVar; rampTms].

Section ControlBase.

(** The values of the fields, of whatever type. *)
Context {V : Type}.

(** From the generated [se_types.h], not among the sources given: the
    position in [_flags] of the bit [SE_f_exists] of a field and of the
    bit [SE_f_true] of a boolean field. *)
Variable exists_bit : Field -> Z.
Variable true_bit : BoolField -> Z.

Record SE_DERControlBase_t : Type := {
  _flags : Z;
  value : Field -> V
}.

Definition set_flags (a : SE_DERControlBase_t) (f : Z) : SE_DERControlBase_t :=
  {| _flags := f; value := value a |}.

(** Modelled from the spec: the macros [se_exists], [se_true] and
    [se_set_true] are in [se_types.h]; they test and set the bit of the
    field in [_flags] ("boolean flags are OR-ed"). *)
Definition se_exists (b : SE_DERControlBase_t) (f : Field) : bool :=
  Z.testbit (_flags b) (exists_bit f).

Definition se_true (b : SE_DERControlBase_t) (f : BoolField) : bool :=
  Z.testbit (_flags b) (true_bit f).

Definition se_set_true (a : SE_DERControlBase_t) (f : BoolField)
  : SE_DERControlBase_t :=
  set_flags a (Z.lor (_flags a) (uint32 (Z.shiftl 1 (true_bit f)))).

(** [copy_field (a, b, field)] *)
Definition copy_field (b a : SE_DERControlBase_t) (f : Field)
  : SE_DERControlBase_t :=
  if se_exists b f then
    {| _flags := _flags a;
       value := fun f' => if decide (f' = f) then value b f else value a f' |}
  else a.

(** [copy_boolean (a, b, field)] *)
Definition copy_boolean (b a : SE_DERControlBase_t) (f : BoolField)
  : SE_DERControlBase_t :=
  if se_true b f then se_set_true a f else a.

(** [copy_der_base (a, b, mask)] for two separate records: [a] and [b]
    after the call. *)
Definition copy_der_base (a b : SE_DERControlBase_t) (mask : Z)
  : SE_DERControlBase_t * SE_DERControlBase_t :=
  let flags := _flags b in
  let b := set_flags b (Z.land (_flags b) mask) in
  let a := set_flags a (Z.lor (_flags a) mask) in
  let a := copy_boolean b a opModConnect in
  let a := copy_boolean b a opModEnergize in
  let a := foldl (copy_field b) a copy_fields in
  let b := set_flags b flags in
  (a, b).

End ControlBase.

End Der.

(** * Properties *)

(** ** The hash container *)

Section HashFacts.

Import Hash.

(** The wrap-around of the unsigned types is the remainder modulo a power
    of two. *)
Lemma uint64_mod x : uint64 x = x mod 2 ^ 64.
Proof. unfold uint64. change 0xffffffffffffffff with (Z.ones 64). apply Z.land_ones. lia. Qed.

Lemma uint32_mod x : uint32 x = x mod 2 ^ 32.
Proof. unfold uint32. change 0xffffffff with (Z.ones 32). apply Z.land_ones. lia. Qed.

Lemma uint8_mod x : uint8 x = x mod 2 ^ 8.
Proof. unfold uint8. change 0xff with (Z.ones 8). apply Z.land_ones. lia. Qed.

(** In a table of two slots an index stays below two. *)
Lemma land_1_cases x : Z.land x 1 = 0 \/ Z.land x 1 = 1.
Proof.
  assert (H : Z.land x 1 = x mod 2) by (apply (Z.land_ones x 1); lia).
  rewrite H. pose proof (Z.mod_pos_bound x 2). lia.
Qed.

(** Once both slots of the table hold a deleted entry, the probe loop of
    [hash_find] meets neither an empty slot nor the key. *)
Lemma find_loop_tombstones fuel (ht : HashTable (Data := Z)) key index probes :
  table ht =
    [{| slot := Some [None; None]; bits := 576460752303423491 |}] ->
  index = 0 \/ index = 1 ->
  hash_find_loop self_key int64_compare fuel ht key 1 index probes
  = Timeout.
Proof.
  revert ht index probes.
  induction fuel as [|fuel IH]; intros ht index probes Ht Hi; [reflexivity|].
  cbn [hash_find_loop]. rewrite Ht.
  destruct Hi as [-> | ->]; cbn;
    (destruct (g ht); apply IH; [exact Ht | apply land_1_cases
                                 | exact Ht | apply land_1_cases]).
Qed.

End HashFacts.

(** C1.  After [hash_put (ht, data)] the call [hash_get (ht, key_of (data))]
    must return [data], and after [hash_delete] it must return null.  The
    code breaks both.  When the 52nd item is put into a table of 64 slots
    the table is resized, the item is stored at the place marked for the
    last item that was put back, and looking it up returns null.  When all
    slots of a table hold deleted entries, looking up a deleted key does
    not return at all: however many probes are allowed, the loop of
    [hash_find] is still running. *)
Theorem hash_get_after_put_and_delete :
  Hash.put_52_get_last 128 = Ok None /\
  (exists h, Hash.two_tombstones = Ok h) /\
  (forall fuel, Hash.get_deleted fuel = Timeout).
Proof.
  split; [vm_compute; reflexivity|].
  split; [eexists; vm_compute; reflexivity|].
  intros fuel. unfold Hash.get_deleted.
  replace Hash.two_tombstones with
    (Ok {| Hash.i := 1; Hash.items := 0; Hash.min := 0; Hash.max := 1;
           Hash.size := 2; Hash.table_id := 1%nat;
           Hash.table :=
             [{| Hash.slot := Some [None; None];
                 Hash.bits := 576460752303423491 |}];
           Hash.g := @None Hash.GroupPtr; Hash.last := 0 |}
       : result (Hash.HashTable (Data := Z)))
    by (vm_compute; reflexivity).
  cbn [rbind]. unfold Hash.int64_get, Hash.hash_get, Hash.hash_find.
  cbn [Hash.size Hash.set_g Hash.set_mark]. 
  rewrite find_loop_tombstones; [reflexivity | reflexivity |].
  change (2 - 1) with 1. apply land_1_cases.
Qed.

(** C9.  After 10000 items with distinct keys are put into a table made by
    [new_int64_hash], [ht->items] is 10000; after every other key is deleted
    it must be 5000 and the iteration must visit the 5000 items left.  In
    the code, for the keys 1 to 10000 and a table made with 64 slots,
    [ht->items] ends at 5005 and the iteration visits 5006 items, six of
    them with deleted keys.  The count is one too low after every resize
    downwards: in a table of four slots, two insertions and two deletions
    leave [ht->items] at -1. *)
Theorem hash_round_trip_items :
  Hash.round_trip 64
  = Ok (10000, 5005, 5006, [4901; 699; 6459; 3337; 525; 4301]) /\
  Hash.put_2_delete_2 = Ok (-1, []).
Proof.
  split; lazymatch goal with |- _ = ?r => vm_cast_no_check (@eq_refl _ r) end.
Qed.

(** ** The EXI primitives *)

Section ExiFacts.

Import Exi.

Lemma rbind_ok {A B} (r : result A) (k : A -> result B) (b : B) :
  rbind r k = Ok b -> exists a, r = Ok a /\ k a = Ok b.
Proof. destruct r; cbn; intros H; try discriminate. eauto. Qed.

Lemma parse_byte_incomplete p b ret b' p' :
  parse_byte b p = Ok (ret, b', p') -> ret = 0 ->
  end_ p - ptr p < byte_need p /\ b' = b /\ p' = p.
Proof.
  unfold parse_byte, byte_need, lacks. intros H ->.
  destruct (bit p =? 0); cbn [negb] in H.
  - destruct (end_ p - ptr p <? 1) eqn:E.
    + inversion H; subst. apply Z.ltb_lt in E. auto.
    + apply rbind_ok in H as (x & _ & H). discriminate.
  - destruct (end_ p - ptr p <? 2) eqn:E.
    + inversion H; subst. apply Z.ltb_lt in E. auto.
    + apply rbind_ok in H as (x & _ & H).
      apply rbind_ok in H as (y & _ & H). discriminate.
Qed.

Lemma parse_bit_incomplete p b ret b' p' :
  parse_bit b p = Ok (ret, b', p') -> ret = 0 ->
  end_ p - ptr p < 1 /\ b' = b /\ p' = p.
Proof.
  unfold parse_bit, lacks. intros H ->.
  destruct (end_ p - ptr p <? 1) eqn:E.
  - inversion H; subst. apply Z.ltb_lt in E. auto.
  - apply rbind_ok in H as (x & _ & H). discriminate.
Qed.

Lemma parse_bits_incomplete p r n ret r' p' :
  parse_bits r p n = Ok (ret, r', p') -> ret = 0 ->
  end_ p - ptr p < bits_need p n /\ r' = r /\ p' = p.
Proof.
  unfold parse_bits, bits_need, lacks. intros H ->.
  apply rbind_ok in H as (bits0 & _ & H).
  destruct (Z.land (bit p + n) 7 =? 0); cbn [negb] in H.
  - destruct (end_ p - ptr p <? Z.shiftr (bit p + n) 3) eqn:E.
    + inversion H; subst. apply Z.ltb_lt in E. auto.
    + destruct (Z.shiftr (bit p + n) 3 <? 0); [discriminate|].
      apply rbind_ok in H as ([bits1 p1] & _ & H). discriminate.
  - destruct (end_ p - ptr p <? Z.shiftr (bit p + n) 3 + 1) eqn:E.
    + inversion H; subst. apply Z.ltb_lt in E. auto.
    + destruct (Z.shiftr (bit p + n) 3 <? 0); [discriminate|].
      apply rbind_ok in H as ([bits1 p1] & _ & H). discriminate.
Qed.

End ExiFacts.

(** C2.  Whenever [parse_byte], [parse_bit] or [parse_bits] returns 0, fewer
    bytes remain between [p->ptr] and [p->end] than the primitive needs, and
    the parser is left as it was before the call, [p->ptr] and [p->bit]
    included ([*b] is not written either); and when the bytes are lacking the
    primitive does return 0 ([parse_bits] reads [*p->ptr] first). *)
Theorem exi_incomplete_keeps_cursor (p : Exi.Parser) :
  (forall b ret b' p',
      Exi.parse_byte b p = Ok (ret, b', p') -> ret = 0 ->
      Exi.end_ p - Exi.ptr p < Exi.byte_need p /\ b' = b /\ p' = p) /\
  (forall b ret b' p',
      Exi.parse_bit b p = Ok (ret, b', p') -> ret = 0 ->
      Exi.end_ p - Exi.ptr p < 1 /\ b' = b /\ p' = p) /\
  (forall r n ret r' p',
      Exi.parse_bits r p n = Ok (ret, r', p') -> ret = 0 ->
      Exi.end_ p - Exi.ptr p < Exi.bits_need p n /\ r' = r /\ p' = p) /\
  (forall b, Exi.end_ p - Exi.ptr p < Exi.byte_need p ->
      Exi.parse_byte b p = Ok (0, b, p)) /\
  (forall b, Exi.end_ p - Exi.ptr p < 1 ->
      Exi.parse_bit b p = Ok (0, b, p)) /\
  (forall r n x, Exi.end_ p - Exi.ptr p < Exi.bits_need p n ->
      Exi.deref p = Ok x ->
      Exi.parse_bits r p n = Ok (0, r, p)).
Proof.
  repeat split.
  - eapply parse_byte_incomplete; eauto.
  - eapply parse_byte_incomplete; eauto.
  - eapply parse_byte_incomplete; eauto.
  - eapply parse_bit_incomplete; eauto.
  - eapply parse_bit_incomplete; eauto.
  - eapply parse_bit_incomplete; eauto.
  - eapply parse_bits_incomplete; eauto.
  - eapply parse_bits_incomplete; eauto.
  - eapply parse_bits_incomplete; eauto.
  - intros b H. unfold Exi.parse_byte, Exi.byte_need, Exi.lacks in *.
    destruct (Exi.bit p =? 0); cbn [negb];
      (destruct (Z.ltb_spec (Exi.end_ p - Exi.ptr p) 1);
       destruct (Z.ltb_spec (Exi.end_ p - Exi.ptr p) 2)); try reflexivity; lia.
  - intros b H. unfold Exi.parse_bit, Exi.lacks.
    destruct (Z.ltb_spec (Exi.end_ p - Exi.ptr p) 1); [reflexivity | lia].
  - intros r n x H Hx. unfold Exi.parse_bits, Exi.bits_need, Exi.lacks in *.
    rewrite Hx. cbn [rbind].
    destruct (Z.land (Exi.bit p + n) 7 =? 0); cbn [negb].
    + destruct (Z.ltb_spec (Exi.end_ p - Exi.ptr p) (Z.shiftr (Exi.bit p + n) 3));
        [reflexivity | lia].
    + destruct (Z.ltb_spec (Exi.end_ p - Exi.ptr p) (Z.shiftr (Exi.bit p + n) 3 + 1));
        [reflexivity | lia].
Qed.

Lemma exi_incomplete_keeps_cursor_witness :
  let p := Exi.set_bit (Exi.exi_parse_init [] [xa5]%byte) 3 in
  Exi.end_ p - Exi.ptr p < Exi.byte_need p /\ 7 = 7 /\ p = p.
Proof.
  intros p.
  destruct (exi_incomplete_keeps_cursor p) as (Hbyte & _).
  apply (Hbyte 7 0 7 p); reflexivity.
Defined.

Section UintFacts.

Import Exi.

Lemma int_sign_extended v : - 2 ^ 31 <= v < 2 ^ 31 -> sign_extended (uint64 v).
Proof.
  intros H. unfold sign_extended, uint64.
  rewrite !Z.land_spec. change (Z.testbit 18446744073709551615 35) with true.
  change (Z.testbit 18446744073709551615 31) with true.
  rewrite !andb_true_r, !Z.testbit_odd, !Z.shiftr_div_pow2 by lia.
  change (2 ^ 35) with 34359738368. change (2 ^ 31) with 2147483648 in *.
  destruct (Z.neg_nonneg_cases v).
  - replace (v / 34359738368) with (-1) by (Z.div_mod_to_equations; lia).
    replace (v / 2147483648) with (-1) by (Z.div_mod_to_equations; lia).
    reflexivity.
  - replace (v / 34359738368) with 0 by (Z.div_mod_to_equations; lia).
    replace (v / 2147483648) with 0 by (Z.div_mod_to_equations; lia).
    reflexivity.
Qed.

Lemma lor_sign_extended a b :
  sign_extended a -> sign_extended b -> sign_extended (Z.lor a b).
Proof. unfold sign_extended. rewrite !Z.lor_spec. congruence. Qed.

Lemma int_shl_int_valued : int_valued int_shl.
Proof.
  intros x n. unfold int_shl, sint32. rewrite uint32_mod.
  change (2 ^ 31) with 2147483648. change (2 ^ 32) with 4294967296.
  change 0x80000000 with 2147483648. change 0x100000000 with 4294967296.
  pose proof (Z.mod_pos_bound (Z.shiftl x (Z.land n 31)) 4294967296).
  destruct (Z.ltb_spec (Z.shiftl x (Z.land n 31) mod 4294967296) 2147483648); lia.
Qed.

End UintFacts.

(** C3.  With enough bytes, [parse_uint] must return 1 and leave in [p->ux]
    the little-endian concatenation of the groups of seven bits when the
    number ends within ten groups.  The code shifts each group as an [int]:
    for the six groups [80 80 80 80 80 01], which encode [2 ^ 35], it
    returns 1 but [p->ux] is not [2 ^ 35], whatever [int] the shift by 35
    yields. *)
Theorem parse_uint_six_groups (shl : Z -> Z -> Z) :
  Exi.int_valued shl ->
  exists p', Exi.parse_uint shl 6 Exi.six_groups = Ok (1, p') /\
             Exi.ux p' <> Exi.le_groups [0x80; 0x80; 0x80; 0x80; 0x80; 0x01] /\
             Exi.le_groups [0x80; 0x80; 0x80; 0x80; 0x80; 0x01] = 2 ^ 35.
Proof.
  intros H. eexists. split; [|split].
  - cbn -[uint64 Z.lor]. reflexivity.
  - cbn -[uint64 Z.lor]. intros E.
    assert (S : Exi.sign_extended 34359738368).
    { change 34359738368
        with (Exi.le_groups [0x80; 0x80; 0x80; 0x80; 0x80; 0x01]).
      cbn -[uint64 Z.lor Z.land] in E |- *. rewrite <- E.
      repeat apply lor_sign_extended; try (apply int_sign_extended, H).
      reflexivity. }
    discriminate S.
  - reflexivity.
Qed.

Lemma parse_uint_six_groups_witness :
  exists p', Exi.parse_uint int_shl 6 Exi.six_groups = Ok (1, p') /\
             Exi.ux p' <> Exi.le_groups [0x80; 0x80; 0x80; 0x80; 0x80; 0x01] /\
             Exi.le_groups [0x80; 0x80; 0x80; 0x80; 0x80; 0x01] = 2 ^ 35.
Proof. apply (parse_uint_six_groups int_shl), int_shl_int_valued. Defined.

Section UintGroups.

Import Exi.
Variable shl : Z -> Z -> Z.

Lemma reads_cons p b bs :
  reads p (b :: bs) ->
  parse_byte 0 p = Ok (1, byte_val b, set_ptr p (ptr p + 1)) /\
  forall u n, reads (set_ux_n (set_ux (set_ptr p (ptr p + 1)) u) n) bs.
Proof.
  intros (Hbit & Hptr & Hmem & Hend). cbn [length] in *.
  assert (Hlook : mem p !! Z.to_nat (ptr p) = Some b).
  { destruct (drop (Z.to_nat (ptr p)) (mem p)) as [|x l] eqn:E; [discriminate|].
    cbn in Hmem. injection Hmem as -> _.
    pose proof (lookup_drop (mem p) (Z.to_nat (ptr p)) 0) as L.
    rewrite E, Nat.add_0_r in L. symmetry. exact L. }
  split.
  - unfold parse_byte, lacks, deref, zlookup. rewrite Hbit. cbn [Z.eqb negb].
    destruct (Z.ltb_spec (end_ p - ptr p) 1); [lia|].
    destruct (Z.ltb_spec (ptr p) 0); [lia|]. rewrite Hlook. reflexivity.
  - intros u n. unfold reads. cbn [bit ptr mem end_ set_ux_n set_ux set_ptr].
    repeat split; try lia.
    replace (Z.to_nat (ptr p + 1)) with (S (Z.to_nat (ptr p))) by lia.
    destruct (drop (Z.to_nat (ptr p)) (mem p)) as [|x l] eqn:E; [discriminate|].
    cbn in Hmem. injection Hmem as _ Hmem.
    rewrite (drop_S _ _ _ Hlook) in E. injection E as _ E.
    rewrite E. exact Hmem.
Qed.

(** The groups with the continuation bit set, one round of the loop each. *)
Lemma parse_uint_loop_continue (cs : list Byte.byte) :
  forall rest fuel p,
    reads p (cs ++ rest) ->
    forallb continues cs = true ->
    ux_n p + 7 * Z.of_nat (length cs) <= 70 ->
    parse_uint_loop shl (length cs + fuel) p
    = parse_uint_loop shl fuel (advanced shl p cs) /\
    reads (advanced shl p cs) rest.
Proof.
  induction cs as [|b cs IH]; intros rest fuel p Hr Hc Hn.
  - cbn [length Nat.add app] in *.
    assert (E : advanced shl p [] = p).
    { unfold advanced. destruct p; cbn. f_equal; lia. }
    rewrite E. split; [reflexivity | exact Hr].
  - cbn [forallb] in Hc. apply andb_true_iff in Hc as [Hb Hc].
    destruct (reads_cons p b (cs ++ rest) Hr) as [Hbyte Hrest].
    cbn [length Nat.add parse_uint_loop]. cbn [length] in Hn.
    destruct (Z.eqb_spec (ux_n p) 70); [lia|].
    rewrite Hbyte. cbn [rbind Z.eqb]. unfold continues in Hb. rewrite Hb.
    match goal with |- parse_uint_loop _ _ ?q = _ /\ _ =>
      destruct (IH rest fuel q) as [IH1 IH2];
        [apply Hrest | exact Hc | cbn [ux_n set_ux_n set_ux set_ptr]; lia |];
      assert (E : advanced shl q cs = advanced shl p (b :: cs))
    end.
    { unfold advanced.
      cbn [ux_n set_ux_n set_ux set_ptr ux ptr mem end_ bit state schemaId
           length ux_after].
      f_equal; lia. }
    rewrite <- E. split; assumption.
Qed.

Lemma le_groups_nonneg l : 0 <= le_groups l.
Proof.
  induction l as [|b l IH]; cbn [le_groups]; [lia|].
  assert (0 <= Z.land b 0x7f) by (apply Z.land_nonneg; lia). lia.
Qed.

Lemma land_7f_bound b : 0 <= Z.land b 0x7f < 128.
Proof.
  change 0x7f with (Z.ones 7). rewrite Z.land_ones by lia.
  change (2 ^ 7) with 128. apply Z.mod_pos_bound. lia.
Qed.

Lemma lor_disjoint_add acc x n :
  0 <= n -> 0 <= acc < 2 ^ n -> 0 <= x ->
  Z.lor acc (x * 2 ^ n) = acc + x * 2 ^ n.
Proof.
  intros Hn Hacc Hx.
  assert (D : Z.land acc (x * 2 ^ n) = 0).
  { apply Z.bits_inj'. intros i Hi. rewrite Z.land_spec, Z.bits_0.
    destruct (Z.lt_ge_cases i n).
    - rewrite Z.mul_pow2_bits_low by lia. apply andb_false_r.
    - destruct (Z.eq_dec acc 0) as [->|]; [rewrite Z.bits_0; reflexivity|].
      rewrite (Z.bits_above_log2 acc i); [reflexivity | lia |].
      apply Z.lt_le_trans with n; [|exact H].
      apply Z.log2_lt_pow2; lia. }
  rewrite <- Z.lxor_lor by exact D. symmetry. apply Z.add_nocarry_lxor. exact D.
Qed.

(** Below [2 ^ 31], where C defines every shift, [ux] is the little-endian
    concatenation of the groups. *)
Lemma ux_after_exact (bs : list Byte.byte) :
  exact_shl shl ->
  forall n acc,
    0 <= n -> n + 7 * Z.of_nat (length bs) <= 35 ->
    0 <= acc < 2 ^ n ->
    acc + 2 ^ n * le_groups (byte_val <$> bs) < 2 ^ 31 ->
    ux_after shl bs n acc = acc + 2 ^ n * le_groups (byte_val <$> bs).
Proof.
  intros Hshl. induction bs as [|b bs IH]; intros n acc Hn Hlen Hacc Hv.
  - cbn. lia.
  - cbn [ux_after fmap list_fmap le_groups length] in *.
    pose proof (land_7f_bound (byte_val b)) as Hx.
    pose proof (le_groups_nonneg (byte_val <$> bs)) as Hl.
    set (x := Z.land (byte_val b) 0x7f) in *.
    set (v := le_groups (byte_val <$> bs)) in *.
    assert (Hp : 0 < 2 ^ n) by (apply Z.pow_pos_nonneg; lia).
    assert (Hterm : x * 2 ^ n < 2 ^ 31) by nia.
    rewrite Hshl by lia.
    rewrite uint64_mod, Z.mod_small
      by (split; [nia | apply Z.lt_trans with (2 ^ 31); [exact Hterm | reflexivity]]).
    rewrite lor_disjoint_add by lia.
    assert (E : 2 ^ (n + 7) = 128 * 2 ^ n)
      by (rewrite Z.pow_add_r by lia; change (2 ^ 7) with 128; lia).
    rewrite IH; rewrite ?E; try nia; lia.
Qed.

Lemma ux_after_app (a b : list Byte.byte) :
  forall n acc,
    ux_after shl (a ++ b) n acc
    = ux_after shl b (n + 7 * Z.of_nat (length a)) (ux_after shl a n acc).
Proof.
  induction a as [|c a IH]; intros n acc; cbn [ux_after app length].
  - f_equal. lia.
  - rewrite IH. f_equal. lia.
Qed.

(** The loop on a parser that reads [cs], all with the continuation bit
    set, and then a last group. *)
Lemma parse_uint_loop_last (cs : list Byte.byte) (last : Byte.byte) rest fuel p :
  reads p (cs ++ last :: rest) ->
  forallb continues cs = true -> continues last = false ->
  ux_n p + 7 * Z.of_nat (length cs) < 70 ->
  (length cs < fuel)%nat ->
  exists p', parse_uint_loop shl fuel p = Ok (1, p') /\
             ux p' = ux_after shl (cs ++ [last]) (ux_n p) (ux p) /\
             ux_n p' = 0 /\
             ptr p' = ptr p + Z.of_nat (length cs) + 1 /\
             state p' = state p.
Proof.
  intros Hr Hc Hl Hn Hfuel.
  destruct (parse_uint_loop_continue cs (last :: rest) (fuel - length cs) p Hr Hc)
    as [E Hr']; [lia|].
  replace (length cs + (fuel - length cs))%nat with fuel in E by lia.
  rewrite E. destruct (fuel - length cs)%nat as [|f] eqn:Ef; [lia|].
  destruct (reads_cons _ _ _ Hr') as [Hbyte _].
  cbn [parse_uint_loop].
  destruct (Z.eqb_spec (ux_n (advanced shl p cs)) 70) as [E70|_].
  { unfold advanced in E70. cbn [ux_n] in E70. lia. }
  rewrite Hbyte. cbn [rbind Z.eqb]. unfold continues in Hl.
  apply negb_false_iff in Hl. rewrite Hl. cbn [negb].
  eexists. split; [reflexivity|].
  cbn [ux ux_n ptr state set_ux_n set_ux set_ptr advanced].
  repeat split; try reflexivity; try lia.
  rewrite ux_after_app. reflexivity.
Qed.

(** The loop on a parser whose buffer ends after [cs], all with the
    continuation bit set. *)
Lemma parse_uint_loop_short (cs : list Byte.byte) fuel p :
  reads p cs -> end_ p = ptr p + Z.of_nat (length cs) ->
  forallb continues cs = true ->
  ux_n p + 7 * Z.of_nat (length cs) < 70 ->
  (length cs < fuel)%nat ->
  parse_uint_loop shl fuel p = Ok (0, advanced shl p cs).
Proof.
  intros Hr He Hc Hn Hfuel.
  assert (Hr0 : reads p (cs ++ [])) by (rewrite app_nil_r; exact Hr).
  destruct (parse_uint_loop_continue cs [] (fuel - length cs) p Hr0 Hc)
    as [E _]; [lia|].
  replace (length cs + (fuel - length cs))%nat with fuel in E by lia.
  rewrite E. destruct (fuel - length cs)%nat as [|f] eqn:Ef; [lia|].
  cbn [parse_uint_loop].
  destruct (Z.eqb_spec (ux_n (advanced shl p cs)) 70) as [E70|_].
  { unfold advanced in E70. cbn [ux_n] in E70. lia. }
  destruct Hr as (Hbit & _).
  unfold parse_byte, lacks. cbn [advanced bit end_ ptr]. rewrite Hbit. cbn [Z.eqb negb].
  destruct (Z.ltb_spec (end_ p - (ptr p + Z.of_nat (length cs))) 1); [|lia].
  reflexivity.
Qed.

Lemma int_shl_exact : exact_shl int_shl.
Proof.
  intros x n Hx Hn Hv. unfold int_shl, sint32.
  assert (E : Z.land n 31 = n).
  { change 31 with (Z.ones 5). rewrite Z.land_ones by lia.
    apply Z.mod_small. change (2 ^ 5) with 32. lia. }
  rewrite E, Z.shiftl_mul_pow2, uint32_mod by lia.
  assert (Hp : 0 < 2 ^ n) by (apply Z.pow_pos_nonneg; lia).
  change (2 ^ 31) with 2147483648 in Hv.
  rewrite Z.mod_small by (change (2 ^ 32) with 4294967296; nia).
  destruct (Z.ltb_spec (x * 2 ^ n) 0x80000000); [reflexivity | lia].
Qed.

End UintGroups.

(** X1.  Ten groups with the continuation bit set: [parse_uint] reads all
    ten, finds [ux_n] at 70 before an eleventh is read, sets the state to
    [PARSE_INVALID] and returns 0, whatever the shift yields. *)
Theorem parse_uint_ten_continued (shl : Z -> Z -> Z) (p : Exi.Parser)
    (cs rest : list Byte.byte) (fuel : nat) :
  Exi.ux_n p = 0 -> Exi.reads p (cs ++ rest) -> length cs = 10%nat ->
  forallb Exi.continues cs = true -> (10 < fuel)%nat ->
  exists p', Exi.parse_uint shl fuel p = Ok (0, p') /\
             Exi.state p' = PARSE_INVALID /\
             Exi.ptr p' = Exi.ptr p + 10.
Proof.
  intros Hn Hr Hlen Hc Hfuel. unfold Exi.parse_uint. rewrite Hn. cbn [Z.eqb].
  set (q := Exi.set_ux p 0).
  assert (Hrq : Exi.reads q (cs ++ rest)) by exact Hr.
  assert (Hnq : Exi.ux_n q = 0) by exact Hn.
  destruct (parse_uint_loop_continue shl cs rest (fuel - 10) q Hrq Hc) as [E _].
  { rewrite Hnq, Hlen. lia. }
  rewrite Hlen in E. replace (10 + (fuel - 10))%nat with fuel in E by lia.
  rewrite E. destruct (fuel - 10)%nat as [|f] eqn:Ef; [lia|].
  cbn [Exi.parse_uint_loop]. unfold Exi.advanced at 1. cbn [Exi.ux_n].
  rewrite Hnq, Hlen. cbn [Z.eqb Z.of_nat Pos.of_succ_nat Pos.succ Z.mul Z.add Pos.mul Pos.add Pos.eqb].
  eexists. split; [reflexivity|]. cbn. rewrite Hlen. split; [reflexivity | lia].
Qed.

Lemma parse_uint_ten_continued_witness :
  exists p', Exi.parse_uint int_shl 11 Exi.ten_continued = Ok (0, p') /\
             Exi.state p' = PARSE_INVALID /\
             Exi.ptr p' = Exi.ptr Exi.ten_continued + 10.
Proof.
  apply (parse_uint_ten_continued int_shl Exi.ten_continued
           [x80; x80; x80; x80; x80; x80; x80; x80; x80; x80]%byte [x01]%byte 11).
  - reflexivity.
  - unfold Exi.reads. cbn. repeat split; lia.
  - reflexivity.
  - reflexivity.
  - lia.
Defined.

(** X2.  Up to five groups whose value is below [2 ^ 31], the last one with
    the continuation bit clear: [parse_uint] returns 1, [p->ux] is the
    little-endian concatenation of the payloads, [p->ux_n] is back at 0 and
    the cursor is behind the last group.  The shift is any that agrees with
    C where C defines it. *)
Theorem parse_uint_below_2_31 (shl : Z -> Z -> Z) (p : Exi.Parser)
    (cs : list Byte.byte) (last : Byte.byte) (rest : list Byte.byte) (fuel : nat) :
  Exi.exact_shl shl ->
  Exi.ux_n p = 0 -> Exi.reads p (cs ++ last :: rest) ->
  forallb Exi.continues cs = true -> Exi.continues last = false ->
  (length cs < 5)%nat ->
  Exi.le_groups (byte_val <$> cs ++ [last]) < 2 ^ 31 ->
  (length cs < fuel)%nat ->
  exists p', Exi.parse_uint shl fuel p = Ok (1, p') /\
             Exi.ux p' = Exi.le_groups (byte_val <$> cs ++ [last]) /\
             Exi.ux_n p' = 0 /\
             Exi.ptr p' = Exi.ptr p + Z.of_nat (length cs) + 1 /\
             Exi.state p' = Exi.state p.
Proof.
  intros Hshl Hn Hr Hc Hl Hlen Hv Hfuel. unfold Exi.parse_uint. rewrite Hn. cbn [Z.eqb].
  destruct (parse_uint_loop_last shl cs last rest fuel (Exi.set_ux p 0) Hr Hc Hl)
    as (p' & E & Hux & Hn' & Hptr & Hst).
  { cbn [Exi.ux_n Exi.set_ux]. lia. }
  { exact Hfuel. }
  exists p'. cbn [Exi.ux Exi.ux_n Exi.ptr Exi.state Exi.set_ux] in *.
  repeat split; try assumption.
  rewrite Hux, Hn.
  rewrite (ux_after_exact shl (cs ++ [last]) Hshl 0 0); rewrite ?length_app;
    cbn [length]; rewrite ?Z.pow_0_r; lia.
Qed.

Lemma parse_uint_below_2_31_witness :
  exists p', Exi.parse_uint int_shl 3 Exi.three_groups = Ok (1, p') /\
             Exi.ux p' = 16684 /\
             Exi.ux_n p' = 0 /\
             Exi.ptr p' = 3 /\
             Exi.state p' = PARSE_NEXT.
Proof.
  apply (parse_uint_below_2_31 int_shl Exi.three_groups
           [xac; x82]%byte x01%byte [xff]%byte 3).
  - exact int_shl_exact.
  - reflexivity.
  - unfold Exi.reads. cbn. repeat split; lia.
  - reflexivity.
  - reflexivity.
  - cbn. lia.
  - vm_compute. reflexivity.
  - cbn. lia.
Defined.

(** X3.  [parse_uint] resumes between bytes.  When the buffer ends after
    the groups [cs1], all with the continuation bit set, [parse_uint]
    returns 0 and leaves the state as it is; called again after
    [exi_rebuffer] with the bytes that follow, it returns 1 with the same
    [p->ux] that it leaves when it reads all the groups in one call. *)
Theorem parse_uint_resumes (shl : Z -> Z -> Z) (p p0 : Exi.Parser)
    (cs1 cs2 : list Byte.byte) (last : Byte.byte) (rest : list Byte.byte) (fuel : nat) :
  Exi.ux_n p = 0 -> Exi.reads p cs1 ->
  Exi.end_ p = Exi.ptr p + Z.of_nat (length cs1) ->
  Exi.ux_n p0 = 0 -> Exi.reads p0 (cs1 ++ cs2 ++ last :: rest) ->
  forallb Exi.continues (cs1 ++ cs2) = true -> Exi.continues last = false ->
  (length (cs1 ++ cs2) < 10)%nat -> (10 <= fuel)%nat ->
  exists p1 p2 p0',
    Exi.parse_uint shl fuel p = Ok (0, p1) /\
    Exi.state p1 = Exi.state p /\
    Exi.parse_uint shl fuel (Exi.exi_rebuffer p1 (cs2 ++ last :: rest)) = Ok (1, p2) /\
    Exi.parse_uint shl fuel p0 = Ok (1, p0') /\
    Exi.ux p2 = Exi.ux p0' /\ Exi.ux_n p2 = 0 /\ Exi.state p2 = Exi.state p.
Proof.
  intros Hn Hr He Hn0 Hr0 Hc Hl Hlen Hfuel.
  rewrite forallb_app in Hc. apply andb_true_iff in Hc as [Hc1 Hc2].
  rewrite length_app in Hlen.
  (* the first call *)
  assert (E1 : Exi.parse_uint shl fuel p
               = Ok (0, Exi.advanced shl (Exi.set_ux p 0) cs1)).
  { unfold Exi.parse_uint. rewrite Hn. cbn [Z.eqb].
    apply parse_uint_loop_short; cbn [Exi.ux_n Exi.set_ux Exi.end_ Exi.ptr];
      try assumption; lia. }
  set (p1 := Exi.advanced shl (Exi.set_ux p 0) cs1) in *.
  (* the second call *)
  set (q := Exi.exi_rebuffer p1 (cs2 ++ last :: rest)).
  set (q2 := if Exi.ux_n q =? 0 then Exi.set_ux q 0 else q).
  assert (Hq : Exi.ux_n q = 7 * Z.of_nat (length cs1)).
  { cbn. lia. }
  assert (Hux : Exi.ux q2 = Exi.ux_after shl cs1 0 0 /\
                Exi.ux_n q2 = 7 * Z.of_nat (length cs1) /\
                Exi.state q2 = Exi.state p /\
                Exi.reads q2 (cs2 ++ last :: rest)).
  { assert (Hrq : Exi.reads q (cs2 ++ last :: rest)).
    { destruct Hr as (Hbit & _). unfold Exi.reads.
      cbn [q Exi.exi_rebuffer Exi.bit Exi.ptr Exi.mem Exi.end_ p1 Exi.advanced Exi.set_ux].
      repeat split; try assumption; try lia.
      change (Z.to_nat 0) with 0%nat. cbn [drop]. apply firstn_all. }
    subst q2. destruct (Z.eqb_spec (Exi.ux_n q) 0) as [Z0|NZ].
    - assert (cs1 = []) as -> by (destruct cs1; [reflexivity | cbn [length] in *; lia]).
      split; [reflexivity|]. split; [cbn; lia|]. split; [reflexivity|].
      unfold Exi.reads in *. exact Hrq.
    - split.
      { cbn [q Exi.exi_rebuffer Exi.ux p1 Exi.advanced Exi.set_ux Exi.ux_n].
        rewrite Hn. reflexivity. }
      split; [exact Hq|]. split; [reflexivity | exact Hrq]. }
  destruct Hux as (Hux & Hnq & Hst & Hrq).
  destruct (parse_uint_loop_last shl cs2 last rest fuel q2 Hrq Hc2 Hl)
    as (p2 & E2 & Hux2 & Hn2 & _ & Hst2); [lia | lia |].
  (* the uninterrupted call *)
  assert (Hr0' : Exi.reads (Exi.set_ux p0 0) ((cs1 ++ cs2) ++ last :: rest)).
  { rewrite <- app_assoc. exact Hr0. }
  destruct (parse_uint_loop_last shl (cs1 ++ cs2) last rest fuel (Exi.set_ux p0 0) Hr0')
    as (p0' & E0 & Hux0 & _).
  { rewrite forallb_app, Hc1, Hc2. reflexivity. }
  { exact Hl. }
  { cbn [Exi.ux_n Exi.set_ux]. rewrite length_app. lia. }
  { rewrite length_app. lia. }
  exists p1, p2, p0'. repeat split.
  - exact E1.
  - unfold Exi.parse_uint. fold q. fold q2. exact E2.
  - unfold Exi.parse_uint. rewrite Hn0. exact E0.
  - rewrite Hux2, Hux0, Hux, Hnq. cbn [Exi.ux Exi.ux_n Exi.set_ux]. rewrite Hn0.
    rewrite <- app_assoc, (ux_after_app shl cs1 (cs2 ++ [last])). f_equal. 
  - exact Hn2.
  - congruence.
Qed.

Lemma parse_uint_resumes_witness :
  exists p1 p2 p0',
    Exi.parse_uint int_shl 10 Exi.two_of_four = Ok (0, p1) /\
    Exi.state p1 = Exi.state Exi.two_of_four /\
    Exi.parse_uint int_shl 10 (Exi.exi_rebuffer p1 [x82; x03]%byte) = Ok (1, p2) /\
    Exi.parse_uint int_shl 10 Exi.four_groups = Ok (1, p0') /\
    Exi.ux p2 = Exi.ux p0' /\ Exi.ux_n p2 = 0 /\
    Exi.state p2 = Exi.state Exi.two_of_four.
Proof.
  apply (parse_uint_resumes int_shl Exi.two_of_four Exi.four_groups
           [x80; x81]%byte [x82]%byte x03%byte [] 10).
  - reflexivity.
  - unfold Exi.reads. cbn. repeat split; lia.
  - reflexivity.
  - reflexivity.
  - unfold Exi.reads. cbn. repeat split; lia.
  - reflexivity.
  - reflexivity.
  - cbn. lia.
  - lia.
Defined.

(** C4, as the specification states it.  For the ten bytes
    [24 45 58 49 A0 60 04 53 31 80] and the schemaId ["S1"],
    [exi_parse_header] does not return success: the six bits after the
    header byte are [0x18], not the options code [0xC], and the length read
    next is 1, two less than which is no length of a literal. *)
Lemma exi_header_spec_bytes_fail :
  ~ (exists fuel ret p',
        Exi.exi_parse_header int_shl fuel Exi.header_spec = Ok (ret, p') /\
        ret <> 0 /\ Exi.state p' <> PARSE_INVALID) /\
  (exists p', Exi.parse_bits 0 (Exi.set_ptr Exi.header_spec 5) 6 = Ok (1, 0x18, p')).
Proof.
  split.
  - intros (fuel & ret & p' & H & _).
    destruct fuel; vm_compute in H; discriminate H.
  - eexists. vm_compute. reflexivity.
Qed.

(** C4, amended.  For the nine bytes [24 45 58 49 A0 30 11 4C C6], in which
    the options document is packed into bits as the code reads it, and the
    schemaId ["S1"], [exi_parse_header] returns 1 and does not set
    [PARSE_INVALID]. *)
Theorem exi_header_packed_succeeds :
  forall fuel, exists p',
    Exi.exi_parse_header int_shl (S fuel) Exi.header_packed = Ok (1, p') /\
    Exi.state p' <> PARSE_INVALID /\ Exi.ptr p' = 8 /\ Exi.bit p' = 7.
Proof.
  intros fuel. eexists. split; [vm_compute; reflexivity|].
  repeat split. discriminate.
Qed.

(** X4.  After the optional cookie ["$EXI"], [exi_parse_header] returns 0
    and leaves the state as it is when fewer than five bytes remain; and
    when the next byte is not [A0] it sets [PARSE_INVALID] and returns 0. *)
Theorem exi_header_first_byte (shl : Z -> Z -> Z) (fuel : nat) (p q : Exi.Parser) :
  Exi.skip_cookie p = Ok q ->
  (Exi.end_ q - Exi.ptr q < 5 ->
   Exi.exi_parse_header shl fuel p = Ok (0, q)) /\
  (forall c, 5 <= Exi.end_ q - Exi.ptr q -> Exi.deref q = Ok c -> c <> 0xa0 ->
   Exi.exi_parse_header shl fuel p
   = Ok (0, Exi.set_state (Exi.set_ptr q (Exi.ptr q + 1)) PARSE_INVALID)).
Proof.
  intros Hq. unfold Exi.exi_parse_header, Exi.lacks. rewrite Hq. cbn [rbind]. split.
  - intros H. destruct (Z.ltb_spec (Exi.end_ q - Exi.ptr q) 5); [reflexivity | lia].
  - intros c H Hc Hne.
    destruct (Z.ltb_spec (Exi.end_ q - Exi.ptr q) 5); [lia|].
    rewrite Hc. cbn [rbind].
    destruct (Z.eqb_spec c 0xa0); [contradiction | reflexivity].
Qed.

Lemma exi_header_first_byte_witness :
  Exi.exi_parse_header int_shl 1 Exi.header_80
  = Ok (0, Exi.set_state (Exi.set_ptr (Exi.set_ptr Exi.header_80 4) 5) PARSE_INVALID).
Proof.
  apply (proj2 (exi_header_first_byte int_shl 1 Exi.header_80
                  (Exi.set_ptr Exi.header_80 4) eq_refl) 0x80).
  - cbn. lia.
  - reflexivity.
  - discriminate.
Defined.

(** ** XML values *)

(** C5.  [parse_value] on an entry of type boolean: for the text ["true"]
    or ["1"] it returns 1 and sets the bit [1 << p->flag] in the flag word;
    for ["false"] or ["0"] it returns 1 and leaves the flag word as it is;
    for any other text it sets [p->state = PARSE_INVALID] and returns 0. *)
Theorem parse_value_boolean hex_digit only unsigned_int (p : Xml.Parser) (w : Z) :
  Z.land (Z.lxor (Xml.se_type p) Schema.ST_SIMPLE) 0xf = Schema.XS_BOOLEAN ->
  0 <= Xml.flag p < 32 ->
  let data := Xml.cstr (Xml.ptr p) in
  let call := Xml.parse_value hex_digit only unsigned_int p (Xml.Flags w) in
  (data = "true"%string \/ data = "1"%string ->
   call = Ok (1, Xml.Flags (Z.lor w (2 ^ Xml.flag p)), p)) /\
  (data = "false"%string \/ data = "0"%string ->
   call = Ok (1, Xml.Flags w, p)) /\
  (data <> "true"%string -> data <> "1"%string ->
   data <> "false"%string -> data <> "0"%string ->
   call = Ok (0, Xml.Flags w, Xml.set_state p PARSE_INVALID)).
Proof.
  intros Hty Hflag data call. subst call.
  unfold Xml.parse_value. rewrite Hty. cbn [Schema.XS_BOOLEAN].
  assert (Hbit : uint32 (Z.shiftl 1 (Xml.flag p)) = 2 ^ Xml.flag p).
  { rewrite uint32_mod, Z.shiftl_1_l. apply Z.mod_small.
    split; [apply Z.pow_nonneg; lia | apply Z.pow_lt_mono_r; lia]. }
  unfold Xml.streq. fold data.
  repeat split.
  - intros [-> | ->]; cbn; now rewrite Hbit.
  - intros [-> | ->]; reflexivity.
  - intros H1 H2 H3 H4.
    assert (E : forall s : string, data <> s -> String.eqb data (Xml.cstr s) = false
                                   \/ Xml.cstr s <> s).
    { intros s Hs. destruct (String.eqb_spec data (Xml.cstr s)) as [E|E]; [|now left].
      right. congruence. }
    destruct (E _ H1) as [-> | F]; [|now elim F].
    destruct (E _ H2) as [-> | F]; [|now elim F].
    destruct (E _ H3) as [-> | F]; [|now elim F].
    destruct (E _ H4) as [-> | F]; [|now elim F].
    reflexivity.
Qed.

Lemma parse_value_boolean_witness :
  let p := {| Xml.se_type := Schema.xs_type Schema.XS_BOOLEAN 0 + Schema.ST_SIMPLE;
              Xml.ptr := "true"; Xml.flag := 3; Xml.state := PARSE_ELEMENT |} in
  Xml.parse_value Xml.hex_digit Xml.only (fun _ => None) p (Xml.Flags 1)
  = Ok (1, Xml.Flags 9, p).
Proof.
  intros p.
  apply (parse_value_boolean Xml.hex_digit Xml.only (fun _ => None) p 1);
    [reflexivity | cbn; lia | left; reflexivity].
Defined.

Section HexFacts.

Import Xml.
Variable hex_digit : Z -> Z.

Lemma zstore_middle {A} (pre suf : list A) (x b : A) :
  zstore (pre ++ x :: suf) (Z.of_nat (length pre)) b = Some (pre ++ b :: suf).
Proof.
  unfold zstore. destruct (Z.ltb_spec (Z.of_nat (length pre)) 0); [lia|].
  cbn zeta. rewrite Nat2Z.id, list_lookup_middle by reflexivity. f_equal.
  rewrite insert_app_r_alt by lia. rewrite Nat.sub_diag. reflexivity.
Qed.

Lemma parse_hex_loop_pairs (ps : list (ascii * ascii)) :
  forall (rest : string) (pre suf : list Z) (n : Z),
    Forall (hex_pair hex_digit) ps ->
    (length ps <= length suf)%nat ->
    Z.of_nat (length pre) + Z.of_nat (length ps) <= n ->
    parse_hex_loop hex_digit (prepend (pair_chars ps) rest) (pre ++ suf) n
      (Z.of_nat (length pre))
    = parse_hex_loop hex_digit rest
        (pre ++ (hex_byte hex_digit <$> ps) ++ drop (length ps) suf) n
        (Z.of_nat (length pre) + Z.of_nat (length ps)).
Proof.
  induction ps as [|[c1 c2] ps IH]; intros rest pre suf n Hps Hlen Hn.
  - cbn. rewrite Z.add_0_r, drop_0. reflexivity.
  - apply Forall_cons in Hps as [[H1 H2] Hps]. cbn in H1, H2.
    destruct suf as [|x suf]; [cbn in Hlen; lia|].
    cbn [pair_chars flat_map fst snd app prepend length] in *.
    cbn [parse_hex_loop peek].
    destruct (Z.eqb_spec (hex_digit (code c1)) 0) as [E|_]; [now elim H1|].
    destruct (Z.eqb_spec (Z.of_nat (length pre)) n) as [E|_]; [lia|].
    destruct (Z.eqb_spec (hex_digit (code c2)) 0) as [E|_]; [now elim H2|].
    rewrite zstore_middle.
    replace (pre ++ uint8 (Z.lor (Z.shiftl (code c1 - hex_digit (code c1)) 4)
                             (code c2 - hex_digit (code c2))) :: suf)
      with ((pre ++ [hex_byte hex_digit (c1, c2)]) ++ suf)
      by (rewrite <- app_assoc; reflexivity).
    replace (Z.of_nat (length pre) + 1)
      with (Z.of_nat (length (pre ++ [hex_byte hex_digit (c1, c2)])))
      by (rewrite length_app; cbn; lia).
    fold (pair_chars ps).
    rewrite IH; [|assumption | lia | rewrite length_app; cbn; lia].
    rewrite <- app_assoc. cbn [app fmap list_fmap drop].
    f_equal. rewrite length_app. cbn. lia.
Qed.

Lemma prepend_app (a b : list ascii) (rest : string) :
  prepend (a ++ b) rest = prepend a (prepend b rest).
Proof. induction a as [|c a IH]; cbn; [reflexivity | now rewrite IH]. Qed.

Lemma pair_chars_app (a b : list (ascii * ascii)) :
  pair_chars (a ++ b) = pair_chars a ++ pair_chars b.
Proof. unfold pair_chars. apply flat_map_app. Qed.

(** The loop stops with 0 at the first digit after [n] pairs. *)
Lemma parse_hex_loop_full (ps : list (ascii * ascii)) (value : list Z) (n : Z) rest :
  Z.of_nat (length value) = n ->
  Forall (hex_pair hex_digit) ps ->
  n < Z.of_nat (length ps) ->
  exists v, parse_hex_loop hex_digit (prepend (pair_chars ps) rest) value n 0
            = Ok (None, v).
Proof.
  intros Hlen Hps Hn.
  assert (Hk : (Z.to_nat n < length ps)%nat) by lia.
  rewrite <- (take_drop (Z.to_nat n) ps) in Hps |- *.
  apply Forall_app in Hps as [Hps1 Hps2].
  rewrite pair_chars_app, prepend_app.
  destruct (drop (Z.to_nat n) ps) as [|[c1 c2] ps2] eqn:Ed.
  { apply (f_equal length) in Ed. rewrite length_drop in Ed. cbn in Ed. lia. }
  apply Forall_cons in Hps2 as [[H1 _] _]. cbn in H1.
  pose proof (parse_hex_loop_pairs (take (Z.to_nat n) ps)
                (prepend (pair_chars ((c1, c2) :: ps2)) rest) [] value n Hps1) as L.
  cbn [app length] in L. change (Z.of_nat 0) with 0 in L. rewrite L; rewrite ?length_take; try lia.
  cbn [pair_chars flat_map fst snd app prepend parse_hex_loop peek].
  destruct (Z.eqb_spec (hex_digit (code c1)) 0) as [E|_]; [now elim H1|].
  destruct (Z.eqb_spec (0 + Z.of_nat (Z.to_nat n `min` length ps)) n) as [_|E]; [|lia].
  eauto.
Qed.

End HexFacts.

(** C6.  For a field of [n] bytes and a text of [m] pairs of hexadecimal
    digits, [1 <= m <= n], followed by an accepted end, [parse_hex] returns
    1 and stores the [m] bytes at [value[n-m .. n-1]] behind [n - m] zero
    bytes.  It returns 0 when a single digit follows the pairs (an odd
    number of digits), when there is no digit, and when there are more than
    [n] pairs. *)
Theorem parse_hex_right_aligned (hex_digit : Z -> Z) (only : string -> bool)
    (value : list Z) (n : Z) (ps : list (ascii * ascii)) (rest : string) :
  Z.of_nat (length value) = n ->
  Forall (Xml.hex_pair hex_digit) ps ->
  hex_digit (Xml.peek rest) = 0 ->
  (only rest = true -> 1 <= Z.of_nat (length ps) <= n ->
   Xml.parse_hex hex_digit only value n (Xml.prepend (Xml.pair_chars ps) rest)
   = Ok (1, replicate (Z.to_nat n - length ps) 0 ++ (Xml.hex_byte hex_digit <$> ps))) /\
  (forall d, Xml.is_hex hex_digit d ->
   exists v, Xml.parse_hex hex_digit only value n
               (Xml.prepend (Xml.pair_chars ps) (String d rest)) = Ok (0, v)) /\
  (exists v, Xml.parse_hex hex_digit only value n rest = Ok (0, v)) /\
  (n < Z.of_nat (length ps) ->
   exists v, Xml.parse_hex hex_digit only value n (Xml.prepend (Xml.pair_chars ps) rest)
             = Ok (0, v)).
Proof.
  intros Hlen Hps Hrest.
  assert (Hstop : forall v m, Xml.parse_hex_loop hex_digit rest v n m = Ok (Some (m, rest), v)).
  { intros v m. destruct rest; cbn [Xml.parse_hex_loop]; cbn [Xml.peek] in *;
      rewrite Hrest; reflexivity. }
  split; [|split; [|split]].
  - intros Honly Hm. unfold Xml.parse_hex.
    pose proof (parse_hex_loop_pairs hex_digit ps rest [] value n Hps) as L.
    cbn [app length] in L. change (Z.of_nat 0) with 0 in L. rewrite L by lia. rewrite Hstop. cbn [rbind].
    rewrite Honly. cbn [negb orb].
    destruct (Z.eqb_spec (0 + Z.of_nat (length ps)) 0) as [E|_]; [lia|].
    cbn [orb].
    assert (Hl : length (Xml.hex_byte hex_digit <$> ps) = length ps)
      by apply length_fmap.
    destruct (Z.eqb_spec (n - (0 + Z.of_nat (length ps))) 0) as [E|E]; cbn [negb].
    + replace (Z.to_nat n - length ps)%nat with 0%nat by lia.
      rewrite (drop_ge value) by lia. rewrite app_nil_r. reflexivity.
    + rewrite length_app, length_drop, Hl.
      destruct (Z.ltb_spec (n - (0 + Z.of_nat (length ps))) 0); [lia|].
      destruct (Z.ltb_spec (Z.of_nat (length ps + (length value - length ps)))
                  (n - (0 + Z.of_nat (length ps)) + (0 + Z.of_nat (length ps)))); [lia|].
      cbn [orb]. do 2 f_equal. unfold memset, memmove.
      replace (Z.to_nat (n - (0 + Z.of_nat (length ps))))
        with (Z.to_nat n - length ps)%nat by lia.
      replace (Z.to_nat (0 + Z.of_nat (length ps))) with (length ps) by lia.
      rewrite drop_0.
      set (B := Xml.hex_byte hex_digit <$> ps) in *.
      set (V := B ++ drop (length ps) value).
      assert (HV : length V = Z.to_nat n)
        by (unfold V; rewrite length_app, length_drop; lia).
      assert (H1 : take (length ps) V = B) by (apply take_app_length'; lia).
      assert (H2 : drop (Z.to_nat n - length ps + length ps) V = [])
        by (apply drop_ge; lia).
      rewrite H1, H2, app_nil_r. f_equal.
      apply drop_app_length'. rewrite length_take. lia.
  - intros d Hd. unfold Xml.parse_hex.
    destruct (Z.ltb_spec n (Z.of_nat (length ps))) as [Hn|Hn].
    + destruct (parse_hex_loop_full hex_digit ps value n (String d rest) Hlen Hps Hn) as [v ->].
      cbn. eauto.
    + pose proof (parse_hex_loop_pairs hex_digit ps (String d rest) [] value n Hps) as L.
      cbn [app length] in L. change (Z.of_nat 0) with 0 in L. rewrite L by lia.
      cbn [Xml.parse_hex_loop Xml.peek].
      destruct (Z.eqb_spec (hex_digit (Xml.code d)) 0) as [E|_]; [now elim Hd|].
      destruct (_ =? n); [cbn; eauto|].
      rewrite Hrest. cbn [Z.eqb].
      cbn. eauto.
  - unfold Xml.parse_hex. rewrite Hstop. cbn. eauto.
  - intros Hn. unfold Xml.parse_hex.
    destruct (parse_hex_loop_full hex_digit ps value n rest Hlen Hps Hn) as [v ->].
    cbn. eauto.
Qed.

Lemma parse_hex_right_aligned_witness :
  Xml.parse_hex Xml.hex_digit Xml.only [1; 2; 3; 4] 4 "ab12"
  = Ok (1, [0x00; 0x00; 0xab; 0x12]).
Proof.
  apply (proj1 (parse_hex_right_aligned Xml.hex_digit Xml.only [1; 2; 3; 4] 4
                  [("a"%char, "b"%char); ("1"%char, "2"%char)] ""
                  eq_refl
                  ltac:(repeat constructor; cbn; discriminate)
                  eq_refl)).
  - reflexivity.
  - cbn. lia.
Defined.

(** ** The DER scheduler *)

Section RemoveFacts.
Import Der.
Variable derpl : list Ptr.

Lemma remove_block_device s eb : device (remove_block s eb) = device s.
Proof. reflexivity. Qed.

Lemma filter_filter_ext {A} (f g k : A -> bool) (l : list A) :
  (forall x, f x && g x = k x) ->
  List.filter f (List.filter g l) = List.filter k l.
Proof.
  intros H. induction l as [|x l IH]; [reflexivity|].
  cbn. rewrite <- (H x). destruct (g x); cbn; rewrite ?andb_false_r, ?andb_true_r.
  - destruct (f x); now rewrite IH.
  - exact IH.
Qed.

Lemma filter_ext_bool {A} (f g : A -> bool) (l : list A) :
  (forall x, f x = g x) -> List.filter f l = List.filter g l.
Proof. intros H. apply List.filter_ext. exact H. Qed.

Lemma remove_fold (l : list Ptr) : forall (s : Schedule) (h : Heap) (out : list Response),
  NoDup l ->
  (forall eb, eb ∈ l -> is_Some (h !! eb)) ->
  exists s' h',
    foldl (remove_step derpl) (Ok (s, h, out)) l
    = Ok (s', h', out ++ omap (abort_response s derpl h) l) /\
    scheduled s' = List.filter (fun eb => negb (removed derpl h l eb)) (scheduled s) /\
    active s' = List.filter (fun eb => negb (removed derpl h l eb)) (active s) /\
    superseded s' = List.filter (fun eb => negb (removed derpl h l eb)) (superseded s) /\
    device s' = device s /\ context s' = context s /\ blocks s' = blocks s /\
    (forall eb, h' !! eb =
                if removed derpl h l eb
                then (fun b => set_status b Aborted) <$> h !! eb
                else h !! eb).
Proof.
  induction l as [|eb l IH]; intros s h out Hnd Hval.
  - exists s, h. cbn [foldl omap]. rewrite app_nil_r.
    unfold removed. 
    assert (E : forall q : list Ptr, List.filter (fun eb => negb (bool_decide (eb ∈ []) && match h !! eb with Some b => find_by_data derpl (program b) | None => false end)) q = q).
    { intros q. induction q as [|x q IHq]; [reflexivity|]. cbn.
      rewrite bool_decide_eq_false_2 by apply not_elem_of_nil. cbn. now rewrite IHq. }
    rewrite !E. repeat split; reflexivity.
  - apply NoDup_cons in Hnd as [Hnotin Hnd].
    destruct (Hval eb) as [b Hb]; [apply list_elem_of_here|].
    cbn [foldl]. unfold remove_step at 2. cbn [rbind]. rewrite Hb.
    destruct (find_by_data derpl (program b)) eqn:Hfind.
    + set (s1 := remove_block s eb).
      set (h1 := <[eb := set_status b Aborted]> h).
      set (out1 := match status b with Active => _ | _ => out end).
      destruct (IH s1 h1 out1 Hnd) as (s' & h' & Hrun & Hs & Ha & Hp & Hd & Hc & Hb' & Hh).
      { intros x Hx. unfold h1. destruct (decide (x = eb)) as [->|Hne].
        - rewrite lookup_insert_eq. eauto.
        - rewrite lookup_insert_ne by congruence. apply Hval. now apply list_elem_of_further. }
      assert (Hrm : forall x, removed derpl h1 l x = bool_decide (x ∈ l) && 
                       match h !! x with Some b => find_by_data derpl (program b) | None => false end).
      { intros x. unfold removed. destruct (bool_decide_reflect (x ∈ l)) as [Hx|]; [|reflexivity].
        cbn. unfold h1. rewrite lookup_insert_ne; [reflexivity|]. intros ->. contradiction. }
      assert (Hkeep : forall q : list Ptr,
                 List.filter (fun x => negb (removed derpl h1 l x))
                   (List.filter (fun x => negb (Nat.eqb x eb)) q)
                 = List.filter (fun x => negb (removed derpl h (eb :: l) x)) q).
      { intros q. apply filter_filter_ext. intros x. rewrite Hrm. unfold removed.
        destruct (Nat.eqb_spec x eb) as [->|Hne].
        - rewrite (bool_decide_eq_true_2 (eb ∈ eb :: l)) by apply list_elem_of_here.
          rewrite Hb, Hfind. cbn. apply andb_false_r.
        - assert (Hin : bool_decide (x ∈ eb :: l) = bool_decide (x ∈ l)).
          { apply bool_decide_ext. rewrite elem_of_cons. tauto. }
          rewrite Hin. apply andb_true_r. }
      assert (Hom : forall l0 : list Ptr, (forall x, x ∈ l0 -> x ∈ l) ->
                 omap (abort_response s1 derpl h1) l0
                 = omap (abort_response s derpl h) l0).
      { induction l0 as [|x l0 IH0]; intros Hsub; [reflexivity|].
        cbn [omap list_omap]. rewrite IH0
          by (intros y Hy; apply Hsub; now apply list_elem_of_further).
        unfold abort_response at 1 3. unfold h1.
        rewrite lookup_insert_ne; [reflexivity|].
        intros <-. apply Hnotin, Hsub, list_elem_of_here. }
      exists s', h'. split; [|repeat split].
      * rewrite Hrun. do 2 f_equal. cbn [omap list_omap]. unfold abort_response at 2.
        rewrite Hb, Hfind. cbn [andb]. rewrite Hom by auto.
        unfold out1. destruct (status b); cbn [is_active];
          rewrite <- ?app_assoc; reflexivity.
      * rewrite Hs. apply Hkeep.
      * rewrite Ha. apply Hkeep.
      * rewrite Hp. apply Hkeep.
      * rewrite Hd. reflexivity.
      * rewrite Hc. reflexivity.
      * rewrite Hb'. reflexivity.
      * intros x. rewrite Hh, Hrm. unfold removed.
        destruct (decide (x = eb)) as [->|Hne].
        -- rewrite (bool_decide_eq_false_2 (eb ∈ l)) by assumption.
           rewrite (bool_decide_eq_true_2 (eb ∈ eb :: l)) by apply list_elem_of_here.
           cbn [andb]. unfold h1. rewrite lookup_insert_eq, Hb, Hfind. reflexivity.
        -- assert (Hin : bool_decide (x ∈ eb :: l) = bool_decide (x ∈ l)).
           { apply bool_decide_ext. rewrite elem_of_cons. tauto. }
           rewrite Hin. unfold h1. rewrite lookup_insert_ne by congruence.
           reflexivity.
    + destruct (IH s h out Hnd) as (s' & h' & Hrun & Hs & Ha & Hp & Hd & Hc & Hb' & Hh).
      { intros x Hx. apply Hval. now apply list_elem_of_further. }
      assert (Hrm : forall x, removed derpl h (eb :: l) x = removed derpl h l x).
      { intros x. unfold removed. destruct (decide (x = eb)) as [->|Hne].
        - rewrite Hb, Hfind, !andb_false_r. reflexivity.
        - f_equal. apply bool_decide_ext. rewrite elem_of_cons. tauto. }
      exists s', h'. split; [|repeat split].
      * rewrite Hrun. do 2 f_equal. cbn [omap list_omap]. unfold abort_response at 2.
        rewrite Hb, Hfind. reflexivity.
      * rewrite Hs. apply List.filter_ext. intros x. now rewrite Hrm.
      * rewrite Ha. apply List.filter_ext. intros x. now rewrite Hrm.
      * rewrite Hp. apply List.filter_ext. intros x. now rewrite Hrm.
      * assumption.
      * assumption.
      * assumption.
      * intros x. rewrite Hh, Hrm. reflexivity.
Qed.

End RemoveFacts.

(** C7.  For a list [derpl] that is not empty, and the blocks [l] that the
    hash table [s->blocks] holds: [remove_programs (s, derpl)] takes out of
    the lists of [s] the blocks of [l] whose program is in [derpl] and no
    other, sets the status of each of them to [Aborted] and writes to no
    other block, and calls [device_response] with [EventAbortedProgram]
    for those of them whose status was [Active], in the order of the
    table. *)
Theorem remove_programs_exact (derpl : list Der.Ptr) (s : Der.Schedule) (h : Der.Heap)
    (l : list Der.Ptr) :
  derpl <> [] ->
  Hash.foreach_h (Der.blocks s) = Ok l ->
  NoDup l ->
  (forall eb, eb ∈ l -> is_Some (h !! eb)) ->
  exists s' h',
    Der.remove_programs s derpl h
    = Ok (s', h', omap (Der.abort_response s derpl h) l) /\
    Der.scheduled s' = List.filter (fun eb => negb (Der.removed derpl h l eb)) (Der.scheduled s) /\
    Der.active s' = List.filter (fun eb => negb (Der.removed derpl h l eb)) (Der.active s) /\
    Der.superseded s' = List.filter (fun eb => negb (Der.removed derpl h l eb)) (Der.superseded s) /\
    (forall eb, h' !! eb =
                if Der.removed derpl h l eb
                then (fun b => Der.set_status b Der.Aborted) <$> h !! eb
                else h !! eb).
Proof.
  intros Hne Hl Hnd Hval. unfold Der.remove_programs.
  destruct derpl as [|p derpl'] eqn:E; [congruence|]. rewrite <- E in *.
  rewrite Hl. cbn [rbind].
  destruct (remove_fold derpl l s h [] Hnd Hval)
    as (s' & h' & Hrun & Hs & Ha & Hp & _ & _ & _ & Hh).
  exists s', h'. rewrite Hrun. cbn [app]. auto.
Qed.

Lemma remove_programs_exact_witness :
  exists s' h',
    Der.remove_programs Der.sample_schedule [21%nat] Der.sample_heap
    = Ok (s', h',
          [{| Der.r_device := 7%nat; Der.r_event := 11%nat;
              Der.r_status := Der.EventAbortedProgram |}]) /\
    Der.scheduled s' = [2%nat] /\ Der.active s' = [] /\ Der.superseded s' = [] /\
    (forall eb, h' !! eb =
                if Der.removed [21%nat] Der.sample_heap [2; 3; 1]%nat eb
                then (fun b => Der.set_status b Der.Aborted) <$> Der.sample_heap !! eb
                else Der.sample_heap !! eb).
Proof.
  apply (remove_programs_exact [21%nat] Der.sample_schedule Der.sample_heap
           [2; 3; 1]%nat).
  - discriminate.
  - vm_compute. reflexivity.
  - apply (bool_decide_unpack _). vm_compute. exact I.
  - intros eb Heb.
    repeat (apply elem_of_cons in Heb as [->|Heb]); try (eexists; reflexivity).
    now apply elem_of_nil in Heb.
Defined.

Section DefaultsFacts.
Import Der.
Variable default_control : Ptr -> option Ptr.
Variable se_flags : Ptr -> Z.

Lemma disjoint_spec a b :
  disjoint a b <-> forall i, 0 <= i -> Z.testbit a i && Z.testbit b i = false.
Proof.
  unfold disjoint. split.
  - intros H i Hi. rewrite <- Z.land_spec, H. apply Z.bits_0.
  - intros H. apply Z.bits_inj'. intros i Hi.
    rewrite Z.land_spec, Z.bits_0. auto.
Qed.

Lemma disjoint_sym a b : disjoint a b -> disjoint b a.
Proof. unfold disjoint. now rewrite Z.land_comm. Qed.

Lemma disjoint_land_l a b c : disjoint a c -> disjoint (Z.land b a) c.
Proof.
  rewrite !disjoint_spec. intros H i Hi. specialize (H i Hi).
  rewrite Z.land_spec. destruct (Z.testbit a i), (Z.testbit b i); auto.
Qed.

Lemma disjoint_land_l' a b c : disjoint a c -> disjoint (Z.land a b) c.
Proof. rewrite (Z.land_comm a b). apply disjoint_land_l. Qed.

Lemma disjoint_lnot a : disjoint (uint32 (Z.lnot a)) a.
Proof.
  rewrite disjoint_spec. intros i Hi. unfold uint32.
  rewrite Z.land_spec, Z.lnot_spec by assumption.
  destruct (Z.testbit a i); cbn; [reflexivity | apply andb_false_r].
Qed.

(** The modes that a new default takes are gone from the mask. *)
Lemma disjoint_taken flags mask :
  disjoint (Z.land flags mask) (Z.land mask (uint32 (Z.lnot flags))).
Proof.
  rewrite disjoint_spec. intros i Hi. unfold uint32.
  rewrite !Z.land_spec, Z.lnot_spec by assumption.
  destruct (Z.testbit flags i), (Z.testbit mask i); reflexivity.
Qed.

Lemma active_mask_union h l : forall ebs mask,
  Forall2 (fun p eb => h !! p = Some eb) l ebs ->
  active_mask h l mask = Ok (Z.lor mask (union_der ebs)).
Proof.
  induction l as [|p l IH]; intros ebs mask H; inversion H; subst.
  - cbn. now rewrite Z.lor_0_r.
  - cbn [active_mask]. rewrite H2. rewrite (IH _ _ H4).
    unfold union_der. cbn. now rewrite Z.lor_assoc.
Qed.

Lemma defaults_loop_ok d dp act l : forall mask m ev,
  defaults_ok act mask m ->
  exists mask', defaults_ok act mask' (fst (defaults_loop default_control se_flags d dp l mask m ev)).
Proof.
  induction l as [|t l IH]; intros mask m ev Hok; cbn [defaults_loop].
  - eauto.
  - destruct (mask =? 0); [eauto|].
    destruct (default_control t) as [c|]; [|apply IH, Hok].
    destruct (Z.land (se_flags c) mask =? 0); cbn [negb]; [apply IH, Hok|].
    apply IH. destruct Hok as (Hm & Hall & Hpair).
    split; [|split].
    + now apply disjoint_land_l'.
    + unfold insert_default. constructor.
      * cbn [dc_active]. split; [apply disjoint_taken | now apply disjoint_land_l].
      * eapply Forall_impl; [exact Hall|]. cbn. intros n [H1 H2].
        split; [|assumption]. apply disjoint_sym, disjoint_land_l', disjoint_sym, H1.
    + unfold insert_default. constructor; [|assumption].
      eapply Forall_impl; [exact Hall|]. cbn. intros n [H1 _].
      apply disjoint_land_l, disjoint_sym, H1.
Qed.

Lemma pairs_lookup {A} (R : A -> A -> Prop) (l : list A) :
  (forall x y, R x y -> R y x) -> ForallOrdPairs R l ->
  forall i j x y, i <> j -> l !! i = Some x -> l !! j = Some y -> R x y.
Proof.
  intros Hsym H. induction H as [|a l Ha Hl IH]; intros i j x y Hne Hi Hj.
  - discriminate.
  - rewrite List.Forall_forall in Ha.
    destruct i as [|i], j as [|j]; cbn in Hi, Hj.
    + congruence.
    + injection Hi as <-. apply Ha, list_elem_of_In, list_elem_of_lookup. eauto.
    + injection Hj as <-. apply Hsym, Ha, list_elem_of_In, list_elem_of_lookup. eauto.
    + eapply IH; [|eassumption..]. congruence.
Qed.

End DefaultsFacts.

(** C8.  After [update_defaults (s)], where the blocks of [s->active] are
    [ebs] and [d] is the device at [s->context]: [d->active] is the union of
    the [der] masks of [ebs], the [active] mask of every node of
    [d->defaults] has no bit in common with [d->active], and the [active]
    masks of two nodes at different places of [d->defaults] have no bit in
    common. *)
Theorem update_defaults_disjoint (default_control : Der.Ptr -> option Der.Ptr)
    (se_flags : Der.Ptr -> Z) (s : Der.Schedule) (h : Der.Heap) (d : Der.DerDevice)
    (ebs : list Der.EventBlock) :
  Forall2 (fun p eb => h !! p = Some eb) (Der.active s) ebs ->
  exists d' ev,
    Der.update_defaults default_control se_flags s h d = Ok (d', ev) /\
    Der.d_active d' = Der.union_der ebs /\
    (forall n, n ∈ Der.d_defaults d' -> Z.land (Der.dc_active n) (Der.d_active d') = 0) /\
    (forall i j n1 n2, i <> j ->
       Der.d_defaults d' !! i = Some n1 -> Der.d_defaults d' !! j = Some n2 ->
       Z.land (Der.dc_active n1) (Der.dc_active n2) = 0).
Proof.
  intros Hact. unfold Der.update_defaults.
  rewrite (active_mask_union h _ ebs 0 Hact). cbn [rbind]. rewrite Z.lor_0_l.
  set (act := Der.union_der ebs).
  destruct (defaults_loop_ok default_control se_flags d (Der.context s) act (Der.d_derpl d) (uint32 (Z.lnot act)) [] [])
    as (mask' & Hm & Hall & Hpair).
  { split; [apply disjoint_lnot|]. split; constructor. }
  destruct (Der.defaults_loop default_control se_flags d (Der.context s) (Der.d_derpl d)
              (uint32 (Z.lnot act)) [] []) as [m ev] eqn:E.
  cbn [fst] in *. do 2 eexists. split; [reflexivity|]. cbn [Der.d_active Der.d_defaults].
  split; [reflexivity|]. split.
  - intros n Hn. rewrite elem_of_reverse in Hn.
    rewrite List.Forall_forall in Hall. apply list_elem_of_In in Hn.
    apply (Hall n Hn).
  - intros i j n1 n2 Hne H1 H2.
    apply reverse_lookup_Some in H1 as [H1 L1], H2 as [H2 L2].
    refine (pairs_lookup (fun a b => Der.disjoint (Der.dc_active a) (Der.dc_active b)) m
              _ Hpair _ _ n1 n2 _ H1 H2).
    + intros x y. apply disjoint_sym.
    + lia.
Qed.

Lemma update_defaults_disjoint_witness :
  exists d' ev,
    Der.update_defaults Der.sample_default_control Der.sample_se_flags
      Der.sample_schedule Der.sample_heap Der.sample_device = Ok (d', ev) /\
    Der.d_active d'
    = Der.union_der [{| Der.event := 11%nat; Der.program := 21%nat;
                        Der.status := Der.Active; Der.der := 1 |}] /\
    (forall n, n ∈ Der.d_defaults d' -> Z.land (Der.dc_active n) (Der.d_active d') = 0) /\
    (forall i j n1 n2, i <> j ->
       Der.d_defaults d' !! i = Some n1 -> Der.d_defaults d' !! j = Some n2 ->
       Z.land (Der.dc_active n1) (Der.dc_active n2) = 0).
Proof.
  apply (update_defaults_disjoint Der.sample_default_control Der.sample_se_flags
           Der.sample_schedule Der.sample_heap Der.sample_device).
  repeat constructor.
Defined.

Section ControlBaseFacts.
Import Der.
Context {V : Type}.
Variable exists_bit : Field -> Z.
Variable true_bit : BoolField -> Z.

#[local] Abbreviation base := (SE_DERControlBase_t (V := V)).

Lemma foldl_copy_field_flags (b : base) l : forall a : base,
  _flags (foldl (copy_field exists_bit b) a l) = _flags a.
Proof.
  induction l as [|x l IH]; intros a; [reflexivity|].
  cbn [foldl]. rewrite IH. unfold copy_field. now destruct (se_exists _ b x).
Qed.

Lemma foldl_copy_field_value (b : base) l : forall (a : base) f,
  value (foldl (copy_field exists_bit b) a l) f
  = if bool_decide (f ∈ l) && se_exists exists_bit b f then value b f else value a f.
Proof.
  induction l as [|x l IH]; intros a f; [reflexivity|].
  cbn [foldl]. rewrite IH.
  destruct (decide (f = x)) as [->|Hne].
  - rewrite (bool_decide_eq_true_2 (x ∈ x :: l)) by apply list_elem_of_here.
    unfold copy_field. destruct (se_exists exists_bit b x) eqn:E.
    + cbn [value]. rewrite decide_True by reflexivity.
      now destruct (bool_decide (x ∈ l)).
    + now rewrite !andb_false_r.
  - assert (Hin : bool_decide (f ∈ x :: l) = bool_decide (f ∈ l)).
    { apply bool_decide_ext. rewrite elem_of_cons. tauto. }
    rewrite Hin. destruct (bool_decide (f ∈ l) && se_exists exists_bit b f); [reflexivity|].
    unfold copy_field. destruct (se_exists exists_bit b x); [|reflexivity].
    cbn [value]. now rewrite decide_False.
Qed.

Lemma in_copy_fields f : f ∈ copy_fields.
Proof. apply list_elem_of_In. destruct f; cbn; tauto. Qed.

(** Setting a bit that is set already. *)
Lemma lor_bit_absorbed x k :
  Z.testbit x k = true -> Z.lor x (uint32 (Z.shiftl 1 k)) = x.
Proof.
  intros H. apply Z.bits_inj'. intros i Hi.
  unfold uint32. rewrite Z.lor_spec, Z.land_spec.
  destruct (Z.testbit x i) eqn:E; [reflexivity|]. cbn [orb].
  destruct (Z.eq_dec i k) as [->|Hne]; [congruence|].
  assert (0 <= k) by (destruct (Z.neg_nonneg_cases k) as [Hk|]; [|assumption];
                      rewrite Z.testbit_neg_r in H by assumption; discriminate).
  rewrite Z.shiftl_spec by assumption.
  destruct (Z.neg_nonneg_cases (i - k)).
  - rewrite Z.testbit_neg_r by assumption. reflexivity.
  - replace (Z.testbit 1 (i - k)) with false; [reflexivity|].
    symmetry. apply Z.bits_above_log2; cbn; lia.
Qed.

End ControlBaseFacts.

(** C10.  [copy_der_base (a, b, mask)] leaves [b] as it was; in [a] the
    word [_flags] becomes its old value OR [mask], a field takes the value it
    has in [b] when [b] holds it and [mask] selects it, and every other
    field, so every field outside [mask], keeps its value. *)
Theorem copy_der_base_frame {V : Type} (exists_bit : Der.Field -> Z)
    (true_bit : Der.BoolField -> Z) (a b : Der.SE_DERControlBase_t (V := V)) (mask : Z) :
  let r := Der.copy_der_base exists_bit true_bit a b mask in
  snd r = b /\
  Der._flags (fst r) = Z.lor (Der._flags a) mask /\
  (forall f, Der.value (fst r) f
             = if Z.testbit (Der._flags b) (exists_bit f) && Z.testbit mask (exists_bit f)
               then Der.value b f else Der.value a f) /\
  (forall f, Z.testbit mask (exists_bit f) = false -> Der.value (fst r) f = Der.value a f).
Proof.
  cbn zeta. unfold Der.copy_der_base. cbn [fst snd].
  assert (Hflags : forall (b1 a1 : Der.SE_DERControlBase_t (V := V)) f,
             Der._flags b1 = Z.land (Der._flags b) mask ->
             Der._flags a1 = Z.lor (Der._flags a) mask ->
             Der._flags (Der.copy_boolean true_bit b1 a1 f) = Z.lor (Der._flags a) mask /\
             Der.value (Der.copy_boolean true_bit b1 a1 f) = Der.value a1).
  { intros b1 a1 f Hb Ha. unfold Der.copy_boolean, Der.se_true, Der.se_set_true.
    destruct (Z.testbit (Der._flags b1) (true_bit f)) eqn:E; [|auto].
    cbn [Der._flags Der.value Der.set_flags]. split; [|reflexivity].
    rewrite Ha. apply lor_bit_absorbed.
    rewrite Hb, Z.land_spec in E. apply andb_true_iff in E as [_ E].
    rewrite Z.lor_spec, E. apply orb_true_r. }
  set (b1 := Der.set_flags b (Z.land (Der._flags b) mask)).
  set (a1 := Der.set_flags a (Z.lor (Der._flags a) mask)).
  destruct (Hflags b1 a1 Der.opModConnect eq_refl eq_refl) as [F1 V1].
  destruct (Hflags b1 (Der.copy_boolean true_bit b1 a1 Der.opModConnect) Der.opModEnergize eq_refl F1)
    as [F2 V2].
  assert (Hval : forall f,
             Der.value (foldl (Der.copy_field exists_bit b1)
                      (Der.copy_boolean true_bit b1
                         (Der.copy_boolean true_bit b1 a1 Der.opModConnect) Der.opModEnergize)
                      Der.copy_fields) f
             = if Z.testbit (Der._flags b) (exists_bit f) && Z.testbit mask (exists_bit f)
               then Der.value b f else Der.value a f).
  { intros f. rewrite foldl_copy_field_value, V2, V1.
    rewrite (bool_decide_eq_true_2 _ (in_copy_fields f)). cbn [andb].
    unfold Der.se_exists. cbn [b1 a1 Der._flags Der.value Der.set_flags]. now rewrite Z.land_spec. }
  split; [|split; [|split]].
  - destruct b. reflexivity.
  - rewrite foldl_copy_field_flags. exact F2.
  - exact Hval.
  - intros f Hf. rewrite Hval, Hf, andb_false_r. reflexivity.
Qed.
